(** * Ollama semantic search: a shallow embedding of the retrieval pipeline

    The repository holds two near-duplicate Deno scripts and one shared
    module:

    - [src/embedding.ts]: the embedding client ([getEmbedding]);
    - the "smart search" script, whose [main] classifies every query by the
      trigger substring "search" (module [SmartSearch] below);
    - the "semantic search" script, whose [main] always searches (module
      [SemanticSearch] below).

    JavaScript strings are modelled as [string]; a character stands for one
    UTF-16 code unit in the range 0..255.  JavaScript numbers are IEEE 754
    binary64 values and are modelled by Rocq's primitive floats.  Network
    services, the HTML library and [JSON.parse] are oracles collected in a
    [World]; every request is recorded in a trace and an oracle sees the
    history of requests made so far, so that a service may answer one
    request differently from the next.  Console output is not modelled. *)

From Stdlib Require Import String Ascii List Bool Arith Lia ZArith Permutation.
From Stdlib Require Import Floats.
Import ListNotations.
Local Open Scope string_scope.
Local Open Scope list_scope.
Local Open Scope nat_scope.

Set Implicit Arguments.

(** ** JavaScript string primitives *)

Module JsString.

(** [c] is an upper-case letter of the Latin-1 range: A..Z, or
    U+00C0..U+00DE except the multiplication sign U+00D7. *)
Definition isUpperChar (c : ascii) : bool :=
  let n := nat_of_ascii c in
  ((65 <=? n) && (n <=? 90)) ||
  ((192 <=? n) && (n <=? 222) && negb (n =? 215)).

Definition toLowerChar (c : ascii) : ascii :=
  if isUpperChar c then ascii_of_nat (nat_of_ascii c + 32) else c.

(** [String.prototype.toLowerCase]. *)
Fixpoint toLowerCase (s : string) : string :=
  match s with
  | EmptyString => EmptyString
  | String c r => String (toLowerChar c) (toLowerCase r)
  end.

(** The characters matched by [\s] and stripped by [trim]: TAB, LF, VT,
    FF, CR, SPACE and NO-BREAK SPACE. *)
Definition isSpace (c : ascii) : bool :=
  let n := nat_of_ascii c in
  ((9 <=? n) && (n <=? 13)) || (n =? 32) || (n =? 160).

Fixpoint drop (n : nat) (s : string) : string :=
  match n, s with
  | O, _ => s
  | S n', EmptyString => EmptyString
  | S n', String _ r => drop n' r
  end.

(** [s.includes(needle)]. *)
Fixpoint includes (needle s : string) : bool :=
  if prefix needle s then true
  else match s with
       | EmptyString => false
       | String _ r => includes needle r
       end.

(** [s.replace(pat, rep)] for a string pattern: only the first
    occurrence is replaced, and the match is case-sensitive.  The
    replacement is taken literally (the scripts replace by the empty
    string, which holds no [$] pattern). *)
Fixpoint replace (pat rep s : string) : string :=
  if prefix pat s then (rep ++ drop (String.length pat) s)%string
  else match s with
       | EmptyString => EmptyString
       | String c r => String c (replace pat rep r)
       end.

Fixpoint trimStart (s : string) : string :=
  match s with
  | EmptyString => EmptyString
  | String c r => if isSpace c then trimStart r else s
  end.

Fixpoint trimEnd (s : string) : string :=
  match s with
  | EmptyString => EmptyString
  | String c r =>
      match trimEnd r with
      | EmptyString => if isSpace c then EmptyString else String c EmptyString
      | r' => String c r'
      end
  end.

(** [String.prototype.trim]. *)
Definition trim (s : string) : string := trimEnd (trimStart s).

(** [s.replace(/[\s\n]+/g, " ")]: every maximal run of white space
    becomes one space.  [inRun] tells that the previous character was
    white space. *)
Fixpoint collapseFrom (inRun : bool) (s : string) : string :=
  match s with
  | EmptyString => EmptyString
  | String c r =>
      if isSpace c
      then (if inRun then collapseFrom true r
            else String " "%char (collapseFrom true r))
      else String c (collapseFrom false r)
  end.

Definition collapseWhitespace (s : string) : string := collapseFrom false s.

(** [s.split(sep)] for a one-character separator; [cur] is the piece
    being read. *)
Fixpoint splitFrom (sep : ascii) (cur s : string) : list string :=
  match s with
  | EmptyString => [cur]
  | String c r =>
      if Ascii.eqb c sep then cur :: splitFrom sep EmptyString r
      else splitFrom sep (cur ++ String c EmptyString)%string r
  end.

Definition split (sep : ascii) (s : string) : list string :=
  splitFrom sep EmptyString s.

(** [parts.join(sep)]. *)
Fixpoint join (sep : string) (parts : list string) : string :=
  match parts with
  | [] => EmptyString
  | [p] => p
  | p :: rest => (p ++ sep ++ join sep rest)%string
  end.

Definition isEmpty (s : string) : bool :=
  match s with EmptyString => true | _ => false end.

Definition nl : string := String (ascii_of_nat 10) EmptyString.

End JsString.
Import JsString.

(** ** Configuration constants *)

Definition EMBEDDING_MODEL : string := "nomic-embed-text".
Definition MAX_CONTENT_LENGTH : nat := 3000.
Definition REQUIRED_LINKS : nat := 10.

(** ** Data model *)

Record SearchResult := mkSearchResult {
  sr_url : string;
  sr_title : string;
  sr_snippet : string
}.

(** One raw hit of the search engine's JSON answer: [title] and [content]
    may be missing. *)
Record RawHit := mkRawHit {
  raw_url : string;
  raw_title : option string;
  raw_content : option string
}.

Record Source := mkSource {
  url : string;
  text : string;
  embedding : list float
}.

Record RankedSource := mkRanked {
  source : Source;
  similarity : float
}.

(** The exceptions the scripts raise or receive from the runtime. *)
Inductive Err : Type :=
| NetworkError            (* fetch rejected *)
| AbortError              (* the AbortController fired *)
| HttpError (status : nat)
| BodyError               (* the body could not be read or decoded *)
| ExtractionError         (* the HTML library raised *)
| ModelCheckError         (* "Ollama not responding" *)
| DownloadError           (* "Model download failed" *)
| GenerationError (status : nat)
| StreamError.            (* reader.read() rejected *)

(** ** Requests, the world and the effect monad *)

Inductive Event : Type :=
| EvPrompt                          (* prompt() *)
| EvSearch (query : string)         (* GET  {SEARXNG}/search?q=query *)
| EvPageGet (url : string)          (* GET  url *)
| EvTags                            (* GET  {OLLAMA}/api/tags *)
| EvPull                            (* ollama pull EMBEDDING_MODEL *)
| EvEmbed (text : string)           (* POST {OLLAMA}/api/embeddings *)
| EvGenerate (prompt : string).     (* POST {OLLAMA}/api/generate *)

Inductive HttpReply (B : Type) : Type :=
| NetFailure
| Reply (status : nat) (body : B).
Arguments NetFailure {B}.

Inductive PageReply : Type :=
| PageNetFailure
| PageTimeout
| PageResp (status : nat) (body : option string).

(** The answer of the generation endpoint: the fetch may reject; otherwise
    the body delivers [chunks] and then either ends or fails. *)
Inductive GenReply : Type :=
| GenNetFailure
| GenResp (status : nat) (chunks : list string) (readFails : bool).

Record World := mkWorld {
  search_reply : list Event -> string -> HttpReply (option (list RawHit));
  page_reply : list Event -> string -> PageReply;
  cheerio_fails : string -> bool;
  cheerio_main : string -> option string;
  cheerio_body : string -> string;
  tags_reply : list Event -> HttpReply (option (list string));
  pull_ok : list Event -> bool;
  embed_reply : list Event -> string -> HttpReply (option (option (list float)));
  generate_reply : list Event -> string -> GenReply;
  json_response : string -> option (option string)
}.

(** [response.ok] *)
Definition ok (status : nat) : bool := (200 <=? status) && (status <=? 299).

Record State := mkState {
  modelEnsured : bool;
  trace : list Event
}.

Definition initialState : State := mkState false [].

Inductive Outcome (A : Type) : Type :=
| Ret (a : A) (s : State)         (* normal completion *)
| Throw (e : Err) (s : State)     (* an exception propagates *)
| Exit (s : State).               (* Deno.exit: the process is gone *)
Arguments Ret {A}.
Arguments Throw {A}.
Arguments Exit {A}.

Definition M (A : Type) : Type := State -> Outcome A.

Definition ret {A} (a : A) : M A := fun st => Ret a st.

Definition bind {A B} (c : M A) (k : A -> M B) : M B :=
  fun st =>
    match c st with
    | Ret a st' => k a st'
    | Throw e st' => Throw e st'
    | Exit st' => Exit st'
    end.

Definition throw {A} (e : Err) : M A := fun st => Throw e st.

Definition exit {A} : M A := fun st => Exit st.

(** [try { body } catch (e) { handler e }]: a process exit is not caught. *)
Definition tryCatch {A} (body : M A) (handler : Err -> M A) : M A :=
  fun st =>
    match body st with
    | Throw e st' => handler e st'
    | o => o
    end.

(** A request to the outside: the oracle answers from the history, and the
    request is appended to the trace. *)
Definition call {R} (ev : Event) (oracle : list Event -> R) : M R :=
  fun st => Ret (oracle (trace st)) (mkState (modelEnsured st) (trace st ++ [ev])).

Definition getModelEnsured : M bool := fun st => Ret (modelEnsured st) st.

Definition setModelEnsured (b : bool) : M unit :=
  fun st => Ret tt (mkState b (trace st)).

Definition finalState {A} (o : Outcome A) : State :=
  match o with
  | Ret _ s => s
  | Throw _ s => s
  | Exit s => s
  end.

Declare Scope js_scope.
Delimit Scope js_scope with js.
Notation "x <- c1 ;; c2" := (bind c1 (fun x => c2))
  (at level 61, c1 at next level, right associativity) : js_scope.
Notation "c1 ;; c2" := (bind c1 (fun _ => c2))
  (at level 61, right associativity) : js_scope.
Local Open Scope js_scope.

(** ** src/embedding.ts *)

Module Embedding.
Section WithWorld.
Variable w : World.

(** The availability check: any failure inside the [try] ends the
    process ([Deno.exit(1)] in the [catch] block). *)
Definition ensureEmbeddingModelRunning : M unit :=
  tryCatch
    (resp <- call EvTags (tags_reply w) ;;
     match resp with
     | NetFailure => throw NetworkError
     | Reply status body =>
         if negb (ok status) then throw ModelCheckError
         else match body with
              | None => throw BodyError
              | Some names =>
                  let hasModel := existsb (includes EMBEDDING_MODEL) names in
                  (if negb hasModel
                   then (success <- call EvPull (pull_ok w) ;;
                         if negb success then throw DownloadError else ret tt)
                   else ret tt) ;;
                  setModelEnsured true
              end
     end)
    (fun _ => exit).

(** The [try] block of [getEmbedding]: one request, any failure of which
    yields the empty vector. *)
Definition requestEmbedding (text : string) : M (list float) :=
  tryCatch
    (response <- call (EvEmbed text) (fun h => embed_reply w h text) ;;
     match response with
     | NetFailure => throw NetworkError
     | Reply status body =>
         if negb (ok status) then throw (HttpError status)
         else match body with
              | None => throw BodyError
              | Some data =>
                  ret (match data with Some e => e | None => [] end)
              end
     end)
    (fun _ => ret []).

Definition getEmbedding (text : string) : M (list float) :=
  ensured <- getModelEnsured ;;
  (if negb ensured then ensureEmbeddingModelRunning else ret tt) ;;
  requestEmbedding text.

End WithWorld.
End Embedding.
Import Embedding.

(** ** JavaScript array primitives *)

Module JsArray.

(** [arr.reduce((acc, x, i) => f acc x i, init)], reading from index [i]. *)
Fixpoint reduceFrom {A B} (i : nat) (f : B -> A -> nat -> B) (acc : B)
    (arr : list A) : B :=
  match arr with
  | [] => acc
  | x :: rest => reduceFrom (S i) f (f acc x i) rest
  end.

Definition reduce {A B} (f : B -> A -> nat -> B) (init : B) (arr : list A) : B :=
  reduceFrom 0 f init arr.

(** [vec[i]] used as a number: a missing element is [undefined], which
    arithmetic turns into NaN. *)
Definition at_index (vec : list float) (i : nat) : float := nth i vec nan.

(** [arr.sort(compareFn)].  The comparator's answer is read through its
    sign; NaN counts as zero.  The sort is stable: an element is placed
    after the elements it does not precede.  For a consistent comparator
    every conforming engine returns this list.  For a comparator that
    answers NaN the language leaves the order to the engine, which returns
    some permutation of the array: there the properties below rely on the
    result being a permutation only, never on its order. *)
Fixpoint insertSorted {A} (compareFn : A -> A -> float) (x : A) (sorted : list A)
    : list A :=
  match sorted with
  | [] => [x]
  | y :: rest =>
      if (compareFn x y <? 0)%float then x :: sorted
      else y :: insertSorted compareFn x rest
  end.

Definition sort {A} (compareFn : A -> A -> float) (arr : list A) : list A :=
  fold_left (fun sorted x => insertSorted compareFn x sorted) arr [].

(** [arr.slice(0, n)] *)
Definition slice0 {A} (n : nat) (arr : list A) : list A := firstn n arr.

End JsArray.
Import JsArray.

(** ** The code shared by the two scripts *)

Module Pipeline.
Section WithWorld.
Variable w : World.

Definition toSearchResult (result : RawHit) : SearchResult :=
  mkSearchResult (raw_url result)
    (match raw_title result with Some t => t | None => "" end)
    (match raw_content result with Some c => c | None => "" end).

Definition searchWeb (query : string) : M (list SearchResult) :=
  response <- call (EvSearch query) (fun h => search_reply w h query) ;;
  match response with
  | NetFailure => throw NetworkError
  | Reply status body =>
      if negb (ok status) then throw (HttpError status)
      else match body with
           | None => throw BodyError
           | Some results => ret (map toSearchResult results)
           end
  end.

Definition emptySource (u : string) : Source := mkSource u "" [].

(** The text kept of a page: the first primary-content element if there
    is one, the body otherwise; white space collapsed; cut at
    [MAX_CONTENT_LENGTH]. *)
Definition processedText (html : string) : string :=
  let text := match cheerio_main w html with
              | Some mainText => mainText
              | None => cheerio_body w html
              end in
  substring 0 MAX_CONTENT_LENGTH (collapseWhitespace text).

Definition fetchPageContent (u : string) : M Source :=
  tryCatch
    (response <- call (EvPageGet u) (fun h => page_reply w h u) ;;
     match response with
     | PageNetFailure => throw NetworkError
     | PageTimeout => throw AbortError
     | PageResp _ body =>
         match body with
         | None => throw BodyError
         | Some html =>
             if cheerio_fails w html then throw ExtractionError
             else
               embedding <- getEmbedding w (processedText html) ;;
               ret (mkSource u (processedText html) embedding)
         end
     end)
    (fun _ => ret (emptySource u)).

Definition cosineSimilarity (vecA vecB : list float) : float :=
  if negb (length vecA =? length vecB) || (length vecA =? 0) then 0%float
  else
    let dotProduct :=
      reduce (fun sum a i => (sum + a * at_index vecB i)%float) 0%float vecA in
    let magA := PrimFloat.sqrt (reduce (fun sum a _ => (sum + a * a)%float) 0%float vecA) in
    let magB := PrimFloat.sqrt (reduce (fun sum b _ => (sum + b * b)%float) 0%float vecB) in
    (dotProduct / (magA * magB))%float.

(** The ranking step of [generateWebAnswer] / [generateAnswer]:
    [sources.map(...).sort((a, b) => b.similarity - a.similarity).slice(0, 3)]. *)
Definition bySimilarityDesc (a b : RankedSource) : float :=
  (similarity b - similarity a)%float.

Definition rankSources (queryEmbedding : list float) (sources : list Source)
    : list RankedSource :=
  slice0 3
    (sort bySimilarityDesc
       (map (fun s => mkRanked s (cosineSimilarity queryEmbedding (embedding s)))
            sources)).

Definition citation (r : RankedSource) : string :=
  ("[Source: " ++ url (source r) ++ "]" ++ nl ++ text (source r))%string.

Definition webPrompt (query : string) (ranked : list RankedSource) : string :=
  (nl ++ "    [SYSTEM] You are an AI assistant. Use the following web content to answer the query accurately."
   ++ nl ++ nl ++ "    Question: " ++ query
   ++ nl ++ nl ++ "    Web Context:"
   ++ nl ++ "    " ++ join (nl ++ nl) (map citation ranked)
   ++ nl ++ nl ++ "    Answer (concise, cite sources):")%string.

Definition generalPrompt (query : string) : string :=
  (nl ++ "    [SYSTEM] You are an AI assistant. Answer the following question based on your knowledge."
   ++ nl ++ nl ++ "    Question: " ++ query
   ++ nl ++ nl ++ "    Answer (concise):")%string.

(** The text one chunk of the stream adds to the answer: every non-blank
    line is parsed; a line that does not parse or has no [response] adds
    nothing. *)
Definition chunkText (chunk : string) : string :=
  fold_left
    (fun answer line =>
       match json_response w line with
       | Some (Some r) => (answer ++ r)%string
       | _ => answer
       end)
    (filter (fun line => negb (isEmpty (trim line))) (split (ascii_of_nat 10) chunk))
    "".

Definition generateStreamingAnswer (prompt : string) : M string :=
  response <- call (EvGenerate prompt) (fun h => generate_reply w h prompt) ;;
  match response with
  | GenNetFailure => throw NetworkError
  | GenResp status chunks readFails =>
      if negb (ok status) then throw (GenerationError status)
      else
        let answer := fold_left (fun acc chunk => (acc ++ chunkText chunk)%string) chunks "" in
        if readFails then throw StreamError else ret answer
  end.

(** A Source is valid when [text.length > 100]. *)
Definition isValid (content : Source) : bool := 100 <? String.length (text content).

End WithWorld.
End Pipeline.
Import Pipeline.

(** The loop test of both scripts:
    [if (!query || query.toLowerCase() === "exit") break]. *)
Definition sessionEnds (line : option string) : bool :=
  match line with
  | None => true
  | Some query => isEmpty query || (toLowerCase query =? "exit")%string
  end.

(** ** The script with the search / general switch *)

Module SmartSearch.
Section WithWorld.
Variable w : World.

Definition generateWebAnswer (query : string) (sources : list Source) : M string :=
  queryEmbedding <- getEmbedding w query ;;
  generateStreamingAnswer w (webPrompt query (rankSources queryEmbedding sources)).

Definition generateGeneralAnswer (query : string) : M string :=
  generateStreamingAnswer w (generalPrompt query).

(** The collecting loop of [main]:
    [while (sources.length < REQUIRED_LINKS && currentIndex < results.length)].
    [pending] holds [results] from [currentIndex] on. *)
Fixpoint collectSources (required : nat) (pending : list SearchResult)
    (sources : list Source) : M (list Source) :=
  match pending with
  | [] => ret sources
  | result :: pending' =>
      if length sources <? required then
        sources' <-
          tryCatch
            (content <- fetchPageContent w (sr_url result) ;;
             ret (if isValid content then sources ++ [content] else sources))
            (fun _ => ret sources) ;;
        if (length pending' =? 0) && (length sources' <? required)
        then ret sources'
        else collectSources required pending' sources'
      else ret sources
  end.

(** The query sent to the search engine. *)
Definition searchTerms (query : string) : string := trim (replace "search" "" query).

Definition webSearch (query : string) : M unit :=
  tryCatch
    (results <- searchWeb w (searchTerms query) ;;
     sources <- collectSources REQUIRED_LINKS results [] ;;
     if length sources =? 0
     then (generateGeneralAnswer query ;; ret tt)
     else (generateWebAnswer query sources ;; ret tt))
    (fun _ => generateGeneralAnswer query ;; ret tt).

(** One turn of the loop, after the exit test. *)
Definition answerQuery (query : string) : M unit :=
  if negb (includes "search" (toLowerCase query))
  then (generateGeneralAnswer query ;; ret tt)
  else webSearch query.

(** [main]: [lines] are the successive answers of [prompt()], which is
    [null] once the input is exhausted. *)
Fixpoint main (lines : list (option string)) : M unit :=
  line <- call EvPrompt (fun _ => hd None lines) ;;
  if sessionEnds line then ret tt
  else match lines with
       | Some query :: rest => answerQuery query ;; main rest
       | _ => ret tt
       end.

End WithWorld.
End SmartSearch.

(** ** The script that always searches *)

Module SemanticSearch.
Section WithWorld.
Variable w : World.

(** [generateAnswer] ranks, builds the prompt and then streams the answer
    with the very statements of [generateStreamingAnswer], written in
    line. *)
Definition generateAnswer (query : string) (sources : list Source) : M string :=
  queryEmbedding <- getEmbedding w query ;;
  generateStreamingAnswer w (webPrompt query (rankSources queryEmbedding sources)).

(** [for (let i = 0; i < linksToFetch.length; i++)] *)
Fixpoint fetchLinks (linksToFetch : list SearchResult) (sources : list Source)
    : M (list Source) :=
  match linksToFetch with
  | [] => ret sources
  | link :: rest =>
      content <- fetchPageContent w (sr_url link) ;;
      fetchLinks rest (if isValid content then sources ++ [content] else sources)
  end.

Definition collectSources (results : list SearchResult) : M (list Source) :=
  fetchLinks (slice0 10 results) [].

(** One turn of the loop, after the exit test. *)
Definition answerQuery (query : string) : M unit :=
  tryCatch
    (results <- searchWeb w query ;;
     sources <- collectSources results ;;
     if length sources =? 0 then ret tt
     else (generateAnswer query sources ;; ret tt))
    (fun _ => ret tt).

Fixpoint main (lines : list (option string)) : M unit :=
  line <- call EvPrompt (fun _ => hd None lines) ;;
  if sessionEnds line then ret tt
  else match lines with
       | Some query :: rest => answerQuery query ;; main rest
       | _ => ret tt
       end.

End WithWorld.
End SemanticSearch.

(** ** Specification-side vocabulary *)

(** *** The session *)

(** The state right after one more [prompt()] has been answered. *)
Definition prompted (st : State) : State :=
  mkState (modelEnsured st) (trace st ++ [EvPrompt]).

(** "exit" in any mix of upper and lower case. *)
Definition isExitWord (q : string) : Prop :=
  exists c1 c2 c3 c4 : ascii,
    q = String c1 (String c2 (String c3 (String c4 EmptyString))) /\
    (c1 = "e"%char \/ c1 = "E"%char) /\
    (c2 = "x"%char \/ c2 = "X"%char) /\
    (c3 = "i"%char \/ c3 = "I"%char) /\
    (c4 = "t"%char \/ c4 = "T"%char).

(** The lines that end the session: no line, the empty line, or the
    sentinel. *)
Definition endsSession (line : option string) : Prop :=
  line = None \/ line = Some "" \/ exists q, line = Some q /\ isExitWord q.

(** The lines read before the one that ends the session. *)
Fixpoint queriesAsked (lines : list (option string)) : list (option string) :=
  match lines with
  | [] => []
  | line :: rest => if sessionEnds line then [] else line :: queriesAsked rest
  end.

(** *** Strings *)

(** [r] is [s] with the first occurrence of [pat] taken out, or [s] itself
    when [pat] does not occur. *)
Definition firstRemoved (pat s r : string) : Prop :=
  (includes pat s = false /\ r = s) \/
  (exists pre post : string,
      s = (pre ++ pat ++ post)%string /\
      r = (pre ++ post)%string /\
      forall pre' post' : string,
        s = (pre' ++ pat ++ post')%string ->
        String.length pre <= String.length pre').

Definition startsWithSpace (s : string) : bool :=
  match s with
  | EmptyString => false
  | String c _ => isSpace c
  end.

Fixpoint endsWithSpace (s : string) : bool :=
  match s with
  | EmptyString => false
  | String c EmptyString => isSpace c
  | String _ r => endsWithSpace r
  end.

(** *** Traces *)

(** Every request but the prompt for the next query. *)
Definition isPipelineEvent (ev : Event) : bool :=
  match ev with
  | EvPrompt => false
  | _ => true
  end.

(** The requests of the embedding client. *)
Definition isEmbeddingEvent (ev : Event) : bool :=
  match ev with
  | EvTags | EvPull | EvEmbed _ => true
  | _ => false
  end.

(** The requests of the page fetcher, the embedding of the page included. *)
Definition isFetchEvent (ev : Event) : bool :=
  match ev with
  | EvPageGet _ => true
  | _ => isEmbeddingEvent ev
  end.

Definition anyEvent (ev : Event) : bool := true.

(** The page requests of a trace, in order. *)
Definition pageGets (t : list Event) : list string :=
  flat_map (fun ev => match ev with EvPageGet u => [u] | _ => [] end) t.

(** The prompts handed to the generation endpoint, in order. *)
Definition generations (t : list Event) : list string :=
  flat_map (fun ev => match ev with EvGenerate p => [p] | _ => [] end) t.

(** The number of [prompt()] calls of a trace. *)
Definition prompts (t : list Event) : nat :=
  length (filter (fun ev => match ev with EvPrompt => true | _ => false end) t).

(** [Emits P c]: [c] only ever appends to the trace, every request it
    appends satisfies [P], and it never clears the [modelEnsured] flag. *)
Definition Emits {A} (P : Event -> bool) (c : M A) : Prop :=
  forall st,
    (exists later,
        trace (finalState (c st)) = trace st ++ later /\
        forallb P later = true) /\
    (modelEnsured st = true -> modelEnsured (finalState (c st)) = true).

Definition Monotone {A} (c : M A) : Prop := Emits anyEvent c.

(** The first request a computation makes is [ev]. *)
Definition StartsWith {A} (ev : Event) (c : M A) : Prop :=
  forall st, exists later,
    trace (finalState (c st)) = trace st ++ ev :: later.

(** *** The services *)

(** What the availability check of [ensureEmbeddingModelRunning] finds
    when it is made after the requests [h]: the registry answers with a
    list of models that holds the embedding model, or the download works. *)
Definition registryOk (w : World) (h : list Event) : bool :=
  match tags_reply w h with
  | Reply status (Some names) =>
      ok status &&
      (existsb (includes EMBEDDING_MODEL) names || pull_ok w (h ++ [EvTags]))
  | _ => false
  end.

(** The embedding model has been ensured, or the availability check
    succeeds whenever it is made. *)
Definition modelReady (w : World) (st : State) : Prop :=
  modelEnsured st = true \/ forall h, registryOk w h = true.

(** The search request for [q], made after the requests [h], fails: the
    connection fails, the status is not 2xx, or the body is not the JSON
    expected. *)
Definition searchFails (w : World) (h : list Event) (q : string) : bool :=
  match search_reply w h q with
  | NetFailure => true
  | Reply status body =>
      negb (ok status) || match body with None => true | Some _ => false end
  end.

(** The state right after the search request for [q]. *)
Definition searched (st : State) (q : string) : State :=
  mkState (modelEnsured st) (trace st ++ [EvSearch q]).

(** The generation request for [prompt], made after the requests [h],
    succeeds: a 2xx answer whose stream ends normally. *)
Definition generationOk (w : World) (h : list Event) (prompt : string) : bool :=
  match generate_reply w h prompt with
  | GenNetFailure => false
  | GenResp status _ readFails => ok status && negb readFails
  end.

(** *** Collecting *)

(** [Fetches w st urls contents st']: running [fetchPageContent] on [urls],
    one after the other from [st], returns [contents] and ends in [st']. *)
Inductive Fetches (w : World) : State -> list string -> list Source -> State -> Prop :=
| Fetches_nil : forall st, Fetches w st [] [] st
| Fetches_cons : forall st u content st1 urls contents st',
    fetchPageContent w u st = Ret content st1 ->
    Fetches w st1 urls contents st' ->
    Fetches w st (u :: urls) (content :: contents) st'.

(** *** Ranking *)

(** The cosine similarity in the spec's words: the dot product over the
    product of the magnitudes.  Sums run from the left, starting at zero. *)
Fixpoint dotFrom (acc : float) (a b : list float) : float :=
  match a, b with
  | x :: a', y :: b' => dotFrom (acc + x * y)%float a' b'
  | _, _ => acc
  end.

Definition dotProduct (a b : list float) : float := dotFrom 0%float a b.

Definition magnitude (a : list float) : float := PrimFloat.sqrt (dotProduct a a).

(** [nonIncreasing l]: every element of [l] is at most the one before it,
    in the order of IEEE 754 (where NaN compares with nothing). *)
Fixpoint nonIncreasing (l : list float) : bool :=
  match l with
  | x :: (y :: _) as rest => (y <=? x)%float && nonIncreasing rest
  | _ => true
  end.

(** A scored source, as the ranker builds it. *)
Definition scored (queryEmbedding : list float) (s : Source) : RankedSource :=
  mkRanked s (cosineSimilarity queryEmbedding (embedding s)).

(** ** Sample worlds and inputs

    Concrete worlds on which the pipeline is run below. *)

Fixpoint repeatChar (n : nat) (c : ascii) : string :=
  match n with
  | O => EmptyString
  | S n' => String c (repeatChar n' c)
  end.

(** A page text of 120 characters. *)
Definition longText : string := repeatChar 120 "a"%char.

Definition hit (u : string) : RawHit := mkRawHit u (Some "title") None.

Definition resultsOf (urls : list string) : list SearchResult :=
  map toSearchResult (map hit urls).

(** The pages of the sample web: one host is down, one answers 404 with an
    error page, one serves a short page, every other one a long page. *)
Definition samplePage (u : string) : PageReply :=
  if (u =? "http://down.example")%string then PageTimeout
  else if (u =? "http://gone.example")%string then PageResp 404 (Some longText)
  else if (u =? "http://short.example")%string then PageResp 200 (Some "too short")
  else PageResp 200 (Some longText).

Definition tagsWithModel : HttpReply (option (list string)) :=
  Reply 200 (Some ["llama3:latest"; "nomic-embed-text:latest"]).

(** A world whose search engine answers [searchStatus] with the hits
    [urls], whose registry answers [tags], whose generator answers
    [genStatus], and whose HTML library returns the document itself as the
    body text. *)
Definition sampleWorld (searchStatus : nat) (urls : list string)
    (tags : HttpReply (option (list string))) (genStatus : nat) : World :=
  mkWorld
    (fun _ _ => Reply searchStatus (Some (map hit urls)))
    (fun _ u => samplePage u)
    (fun _ => false)
    (fun _ => None)
    (fun html => html)
    (fun _ => tags)
    (fun _ => true)
    (fun _ _ => Reply 200 (Some (Some [1%float; 0%float])))
    (fun _ _ => GenResp genStatus ["answer"] false)
    (fun line => Some (Some line)).

(** Every service works. *)
Definition healthyWorld (urls : list string) : World :=
  sampleWorld 200 urls tagsWithModel 200.

(** The search engine answers HTTP 500. *)
Definition searchDownWorld : World :=
  sampleWorld 500 [] tagsWithModel 200.

(** The model registry cannot be reached. *)
Definition noRegistryWorld (urls : list string) : World :=
  sampleWorld 200 urls NetFailure 200.

(** Three search results, the second of which serves a short page. *)
Definition threeUrls : list string :=
  ["http://a.example"; "http://short.example"; "http://b.example"].

(** The generation endpoint answers HTTP 500. *)
Definition generatorDownWorld : World :=
  sampleWorld 200 threeUrls tagsWithModel 500.



(** Two sources for the ranker: the embedding of the first is the zero
    vector. *)
Definition zeroSource : Source := mkSource "http://zero.example" longText [0%float].
Definition unitSource : Source := mkSource "http://unit.example" longText [1%float].

(** A session of two queries and the sentinel; the line after the
    sentinel is never read. *)
Definition sampleSession : list (option string) :=
  [Some "search pasta"; Some "capital of France"; Some "Exit"; Some "never read"].

(** ** Further vocabulary

    What the properties of the code beyond the ten claims are stated
    with. *)

(** *** Counting requests *)

Definition isSearchEvent (ev : Event) : bool :=
  match ev with EvSearch _ => true | _ => false end.

Definition isPageEvent (ev : Event) : bool :=
  match ev with EvPageGet _ => true | _ => false end.

Definition isGenerateEvent (ev : Event) : bool :=
  match ev with EvGenerate _ => true | _ => false end.

Definition isTagsEvent (ev : Event) : bool :=
  match ev with EvTags => true | _ => false end.

Definition countEvents (f : Event -> bool) (t : list Event) : nat :=
  length (filter f t).

(** The texts handed to the embedding endpoint, in order. *)
Definition embeds (t : list Event) : list string :=
  flat_map (fun ev => match ev with EvEmbed x => [x] | _ => [] end) t.

(** [Bounded f n c]: [c] appends at most [n] requests of the kind [f]. *)
Definition Bounded {A} (f : Event -> bool) (n : nat) (c : M A) : Prop :=
  forall st, exists later,
    trace (finalState (c st)) = trace st ++ later /\
    countEvents f later <= n.

(** [c] never lets an exception out. *)
Definition NeverThrows {A} (c : M A) : Prop :=
  forall st e st', c st <> Throw e st'.

(** *** The availability check *)

(** While the model is not ensured the registry has not been asked; once
    it is, the registry has been asked at most once. *)
Definition CheckInv (st : State) : Prop :=
  if modelEnsured st then countEvents isTagsEvent (trace st) <= 1
  else countEvents isTagsEvent (trace st) = 0.

(** The state of a process ended by a failed availability check: the
    check was the last thing done, it was the only one, and the model is
    not ensured. *)
Definition FailedCheck (st : State) : Prop :=
  modelEnsured st = false /\
  countEvents isTagsEvent (trace st) = 1 /\
  exists before,
    trace st = before ++ [EvTags] \/ trace st = before ++ [EvTags; EvPull].

Definition CheckOut {A} (o : Outcome A) : Prop :=
  match o with
  | Exit st => FailedCheck st
  | Ret _ st | Throw _ st => CheckInv st
  end.

Definition KeepsCheck {A} (c : M A) : Prop :=
  forall st, CheckInv st -> CheckOut (c st).

(** *** Normalised text *)

(** [wellSpaced prevSpace s]: the only white space of [s] is the space
    character, and no space follows a space ([prevSpace] tells that the
    character before [s] was one). *)
Fixpoint wellSpaced (prevSpace : bool) (s : string) : bool :=
  match s with
  | EmptyString => true
  | String c r =>
      if isSpace c
      then Ascii.eqb c " "%char && negb prevSpace && wellSpaced true r
      else wellSpaced false r
  end.

Fixpoint allSpace (s : string) : bool :=
  match s with
  | EmptyString => true
  | String c r => isSpace c && allSpace r
  end.

(** [trimmedOf s r]: [r] is [s] without its outer white space, that is,
    [s] is [r] between two runs of white space and [r] neither begins nor
    ends with white space. *)
Definition trimmedOf (s r : string) : Prop :=
  startsWithSpace r = false /\
  endsWithSpace r = false /\
  exists pre post : string,
    allSpace pre = true /\ allSpace post = true /\ s = (pre ++ r ++ post)%string.

(** *** Embeddings *)

(** The vector the embedding endpoint answers for [t] after the requests
    [h]: the [embedding] field of a 2xx JSON answer, and no vector
    otherwise. *)
Definition embeddingAnswered (w : World) (h : list Event) (t : string) : list float :=
  match embed_reply w h t with
  | Reply status (Some (Some e)) => if ok status then e else []
  | _ => []
  end.

(** *** Streams *)

(** The pieces of an answer put together. *)
Definition joined (pieces : list string) : string :=
  fold_right String.append EmptyString pieces.

Fixpoint noLineBreak (s : string) : bool :=
  match s with
  | EmptyString => true
  | String c r => negb (Ascii.eqb c (ascii_of_nat 10)) && noLineBreak r
  end.

(** What one line of the stream says: its [response] field when the line
    is JSON with such a field, nothing otherwise. *)
Definition responseOf (w : World) (line : string) : string :=
  match json_response w line with
  | Some (Some r) => r
  | _ => EmptyString
  end.

(** [spoken w chunk said]: [chunk] is made of lines separated by line
    breaks, and [said] is what its lines that are not blank say, in
    order. *)
Definition spoken (w : World) (chunk said : string) : Prop :=
  exists lines : list string,
    String.concat nl lines = chunk /\
    Forall (fun line => noLineBreak line = true) lines /\
    said = joined (map (responseOf w) (filter (fun line => negb (allSpace line)) lines)).

(** *** More sample inputs *)

(** The search engine and the generation endpoint both answer HTTP 500. *)
Definition allDownWorld : World :=
  sampleWorld 500 [] tagsWithModel 500.

(** The double quote. *)
Definition dq : string := String (ascii_of_nat 34) EmptyString.

(** The line [{"response":"r"}] of a generation stream. *)
Definition jsonLine (r : string) : string :=
  ("{" ++ dq ++ "response" ++ dq ++ ":" ++ dq ++ r ++ dq ++ "}")%string.

(** The characters of [s] before the first double quote, and what follows
    from that quote on. *)
Fixpoint untilQuote (s : string) : string * string :=
  match s with
  | EmptyString => (EmptyString, EmptyString)
  | String c r =>
      if Ascii.eqb c (ascii_of_nat 34) then (EmptyString, s)
      else let (text, rest) := untilQuote r in (String c text, rest)
  end.

(** [JSON.parse] followed by [.response] on the lines of the sample
    stream: a line [{"response":"r"}] has the response [r], any other line
    that opens an object has none, and a line that opens no object does not
    parse. *)
Definition sampleParse (line : string) : option (option string) :=
  let opening := ("{" ++ dq ++ "response" ++ dq ++ ":" ++ dq)%string in
  if prefix opening line then
    let (text, rest) := untilQuote (drop (String.length opening) line) in
    if (rest =? dq ++ "}")%string then Some (Some text) else None
  else if prefix "{" line then Some None
  else None.

(** A generator whose stream arrives in two chunks: two lines with a
    response; then an empty line, a blank line, a line that is no JSON, a
    line without response and a last line with a response. *)
Definition sampleStream : list string :=
  [(jsonLine "Hel" ++ nl ++ jsonLine "lo" ++ nl)%string;
   (nl ++ "  " ++ nl ++ "not json" ++ nl
    ++ "{" ++ dq ++ "done" ++ dq ++ ":true}" ++ nl ++ jsonLine " world")%string].

Definition streamWorld : World :=
  mkWorld
    (fun _ _ => Reply 200 (Some []))
    (fun _ u => samplePage u)
    (fun _ => false)
    (fun _ => None)
    (fun html => html)
    (fun _ => tagsWithModel)
    (fun _ => true)
    (fun _ _ => Reply 200 (Some (Some [1%float; 0%float])))
    (fun _ _ => GenResp 200 sampleStream false)
    sampleParse.

(** The embedding endpoint answers HTTP 500. *)
Definition embedDownWorld : World :=
  mkWorld
    (fun _ _ => Reply 200 (Some (map hit threeUrls)))
    (fun _ u => samplePage u)
    (fun _ => false)
    (fun _ => None)
    (fun html => html)
    (fun _ => tagsWithModel)
    (fun _ => true)
    (fun _ _ => Reply 500 None)
    (fun _ _ => GenResp 200 ["answer"] false)
    (fun line => Some (Some line)).

Definition ensuredState : State := mkState true [EvTags].

(** * Theorems *)

Unset Implicit Arguments.

(** ** The effect monad *)

Lemma emits_weaken {A} (P Q : Event -> bool) (c : M A) :
  (forall ev, P ev = true -> Q ev = true) -> Emits P c -> Emits Q c.
Proof.
  intros HPQ Hc st. destruct (Hc st) as [(d & Hd & HP) He]. split; [| exact He].
  exists d. split; [exact Hd |].
  rewrite forallb_forall in *. auto.
Qed.

Lemma emits_monotone {A} (P : Event -> bool) (c : M A) : Emits P c -> Monotone c.
Proof. apply emits_weaken. reflexivity. Qed.

Lemma emits_silent {A} (P : Event -> bool) (c : M A) :
  (forall st, trace (finalState (c st)) = trace st /\
              (modelEnsured st = true -> modelEnsured (finalState (c st)) = true)) ->
  Emits P c.
Proof.
  intros H st. destruct (H st) as [Ht He]. split; [| exact He].
  exists []. now rewrite app_nil_r.
Qed.

Lemma emits_ret {A} P (a : A) : Emits P (ret a).
Proof. apply emits_silent. intros st. simpl. auto. Qed.

Lemma emits_throw {A} P (e : Err) : Emits P (@throw A e).
Proof. apply emits_silent. intros st. simpl. auto. Qed.

Lemma emits_exit {A} P : Emits P (@exit A).
Proof. apply emits_silent. intros st. simpl. auto. Qed.

Lemma emits_getModelEnsured P : Emits P getModelEnsured.
Proof. apply emits_silent. intros st. simpl. auto. Qed.

Lemma emits_setModelEnsured P : Emits P (setModelEnsured true).
Proof. apply emits_silent. intros st. simpl. auto. Qed.

Lemma emits_call {R} (P : Event -> bool) (ev : Event) (oracle : list Event -> R) :
  P ev = true -> Emits P (call ev oracle).
Proof.
  intros HP st. split; [| auto]. exists [ev]. simpl. now rewrite HP.
Qed.

Lemma emits_bind {A B} P (c : M A) (k : A -> M B) :
  Emits P c -> (forall a, Emits P (k a)) -> Emits P (bind c k).
Proof.
  intros Hc Hk st. unfold bind.
  destruct (Hc st) as [(d & Hd & HP) He].
  destruct (c st) as [a st' | e st' | st']; simpl in *; [| split; eauto ..].
  destruct (Hk a st') as [(d' & Hd' & HP') He']. split; [| auto].
  exists (d ++ d'). rewrite Hd', Hd, app_assoc, forallb_app, HP, HP'. auto.
Qed.

Lemma emits_tryCatch {A} P (c : M A) (h : Err -> M A) :
  Emits P c -> (forall e, Emits P (h e)) -> Emits P (tryCatch c h).
Proof.
  intros Hc Hh st. unfold tryCatch.
  destruct (Hc st) as [(d & Hd & HP) He].
  destruct (c st) as [a st' | e st' | st']; simpl in *;
    [split; eauto | | split; eauto].
  destruct (Hh e st') as [(d' & Hd' & HP') He']. split; [| auto].
  exists (d ++ d'). rewrite Hd', Hd, app_assoc, forallb_app, HP, HP'. auto.
Qed.

Create HintDb emits.
#[local] Hint Resolve emits_ret emits_throw emits_exit
  emits_getModelEnsured emits_setModelEnsured : emits.

(** Splits a goal [Emits P c] along the syntax of [c]. *)
Ltac emits :=
  repeat first
    [ solve [ auto with emits ]
    | apply emits_call; reflexivity
    | apply emits_bind; [ | intros ]
    | apply emits_tryCatch; [ | intros ]
    | match goal with
      | |- Emits _ (match ?x with _ => _ end) => destruct x
      | |- Emits _ (if ?b then _ else _) => destruct b
      end ].

Lemma emits_ensureEmbeddingModelRunning w :
  Emits isEmbeddingEvent (ensureEmbeddingModelRunning w).
Proof. unfold ensureEmbeddingModelRunning. emits. Qed.
#[local] Hint Resolve emits_ensureEmbeddingModelRunning : emits.

Lemma emits_requestEmbedding w t : Emits isEmbeddingEvent (requestEmbedding w t).
Proof. unfold requestEmbedding. emits. Qed.
#[local] Hint Resolve emits_requestEmbedding : emits.

Lemma emits_getEmbedding w t : Emits isEmbeddingEvent (getEmbedding w t).
Proof. unfold getEmbedding. emits. Qed.

Lemma emits_getEmbedding_fetch w t : Emits isFetchEvent (getEmbedding w t).
Proof.
  apply emits_weaken with (P := isEmbeddingEvent); [| apply emits_getEmbedding].
  now intros [].
Qed.
#[local] Hint Resolve emits_getEmbedding_fetch : emits.

Lemma emits_fetchPageContent w u : Emits isFetchEvent (fetchPageContent w u).
Proof. unfold fetchPageContent. emits. Qed.
#[local] Hint Resolve emits_fetchPageContent : emits.

Lemma emits_smart_collectSources w required pending :
  forall sources,
    Emits isFetchEvent (SmartSearch.collectSources w required pending sources).
Proof.
  induction pending as [| r pending' IH]; intros sources; simpl; emits.
  all: apply IH.
Qed.

Lemma emits_fetchLinks w links :
  forall sources, Emits isFetchEvent (SemanticSearch.fetchLinks w links sources).
Proof.
  induction links as [| l rest IH]; intros sources; simpl; emits.
  all: apply IH.
Qed.

Lemma emits_semantic_collectSources w results :
  Emits isFetchEvent (SemanticSearch.collectSources w results).
Proof. apply emits_fetchLinks. Qed.

Lemma fetch_is_pipeline ev : isFetchEvent ev = true -> isPipelineEvent ev = true.
Proof. now destruct ev. Qed.

Lemma pipe_getEmbedding w t : Emits isPipelineEvent (getEmbedding w t).
Proof.
  apply emits_weaken with (P := isFetchEvent);
    [exact fetch_is_pipeline | apply emits_getEmbedding_fetch].
Qed.

Lemma pipe_fetchPageContent w u : Emits isPipelineEvent (fetchPageContent w u).
Proof.
  apply emits_weaken with (P := isFetchEvent);
    [exact fetch_is_pipeline | apply emits_fetchPageContent].
Qed.

Lemma pipe_smart_collectSources w required pending sources :
  Emits isPipelineEvent (SmartSearch.collectSources w required pending sources).
Proof.
  apply emits_weaken with (P := isFetchEvent);
    [exact fetch_is_pipeline | apply emits_smart_collectSources].
Qed.

Lemma pipe_semantic_collectSources w results :
  Emits isPipelineEvent (SemanticSearch.collectSources w results).
Proof.
  apply emits_weaken with (P := isFetchEvent);
    [exact fetch_is_pipeline | apply emits_semantic_collectSources].
Qed.

Lemma pipe_searchWeb w q : Emits isPipelineEvent (searchWeb w q).
Proof. unfold searchWeb. emits. Qed.

Lemma pipe_generateStreamingAnswer w p :
  Emits isPipelineEvent (generateStreamingAnswer w p).
Proof. unfold generateStreamingAnswer. emits. Qed.
#[local] Hint Resolve pipe_getEmbedding pipe_fetchPageContent
  pipe_smart_collectSources pipe_semantic_collectSources pipe_searchWeb
  pipe_generateStreamingAnswer : emits.

Lemma pipe_generateWebAnswer w q srcs :
  Emits isPipelineEvent (SmartSearch.generateWebAnswer w q srcs).
Proof. unfold SmartSearch.generateWebAnswer. emits. Qed.

Lemma pipe_generateGeneralAnswer w q :
  Emits isPipelineEvent (SmartSearch.generateGeneralAnswer w q).
Proof. unfold SmartSearch.generateGeneralAnswer. emits. Qed.

Lemma pipe_generateAnswer w q srcs :
  Emits isPipelineEvent (SemanticSearch.generateAnswer w q srcs).
Proof. unfold SemanticSearch.generateAnswer. emits. Qed.
#[local] Hint Resolve pipe_generateWebAnswer pipe_generateGeneralAnswer
  pipe_generateAnswer : emits.

Lemma pipe_smart_webSearch w q : Emits isPipelineEvent (SmartSearch.webSearch w q).
Proof. unfold SmartSearch.webSearch. emits. Qed.

Lemma pipe_smart_answerQuery w q : Emits isPipelineEvent (SmartSearch.answerQuery w q).
Proof. unfold SmartSearch.answerQuery. emits. Qed.

Lemma pipe_semantic_answerQuery w q :
  Emits isPipelineEvent (SemanticSearch.answerQuery w q).
Proof. unfold SemanticSearch.answerQuery. emits. Qed.

Lemma mono_fetchPageContent w u : Monotone (fetchPageContent w u).
Proof. exact (emits_monotone _ _ (emits_fetchPageContent w u)). Qed.

(** Proves [Monotone c] for a piece [c] of the pipeline. *)
Ltac mono := apply emits_monotone with (P := isPipelineEvent); emits.

(** ** Strings *)

(** Decides which characters [toLowerChar] sends to a given letter, by
    running it on the 256 characters. *)
Ltac lower_case_of c :=
  split;
  [ destruct c as [[] [] [] [] [] [] [] []]; vm_compute;
    let H := fresh in intros H; try discriminate H; auto
  | let H := fresh in intros [H | H]; rewrite H; reflexivity ].

Lemma toLowerChar_e c : toLowerChar c = "e"%char <-> c = "e"%char \/ c = "E"%char.
Proof. lower_case_of c. Qed.

Lemma toLowerChar_x c : toLowerChar c = "x"%char <-> c = "x"%char \/ c = "X"%char.
Proof. lower_case_of c. Qed.

Lemma toLowerChar_i c : toLowerChar c = "i"%char <-> c = "i"%char \/ c = "I"%char.
Proof. lower_case_of c. Qed.

Lemma toLowerChar_t c : toLowerChar c = "t"%char <-> c = "t"%char \/ c = "T"%char.
Proof. lower_case_of c. Qed.

Lemma toLowerCase_exit q : toLowerCase q = "exit" <-> isExitWord q.
Proof.
  split.
  - intros H.
    destruct q as [| c1 [| c2 [| c3 [| c4 [| c5 q]]]]]; simpl in H; try discriminate H.
    injection H as H1 H2 H3 H4.
    exists c1, c2, c3, c4. split; [reflexivity |].
    rewrite <- toLowerChar_e, <- toLowerChar_x, <- toLowerChar_i, <- toLowerChar_t.
    auto.
  - intros (c1 & c2 & c3 & c4 & -> & H1 & H2 & H3 & H4). simpl.
    apply toLowerChar_e in H1. apply toLowerChar_x in H2.
    apply toLowerChar_i in H3. apply toLowerChar_t in H4.
    now rewrite H1, H2, H3, H4.
Qed.

Lemma sessionEnds_spec line : sessionEnds line = true <-> endsSession line.
Proof.
  unfold sessionEnds, endsSession. destruct line as [q |].
  - rewrite orb_true_iff, String.eqb_eq, toLowerCase_exit. split.
    + intros [H | H].
      * destruct q; [auto | discriminate H].
      * right. right. now exists q.
    + intros [H | [H | (q' & H & Hq)]].
      * discriminate H.
      * injection H as ->. now left.
      * injection H as ->. now right.
  - split; auto.
Qed.

Lemma smart_main_cons w line rest st :
  SmartSearch.main w (line :: rest) st =
  (if sessionEnds line then ret tt
   else match line with
        | Some query => SmartSearch.answerQuery w query ;; SmartSearch.main w rest
        | None => ret tt
        end) (prompted st).
Proof. reflexivity. Qed.

Lemma semantic_main_cons w line rest st :
  SemanticSearch.main w (line :: rest) st =
  (if sessionEnds line then ret tt
   else match line with
        | Some query => SemanticSearch.answerQuery w query ;; SemanticSearch.main w rest
        | None => ret tt
        end) (prompted st).
Proof. reflexivity. Qed.

(** C10: in both scripts the loop stops exactly at a line that is null,
    empty or the word "exit" in any mix of cases: the test accepts those
    lines and no other; on such a line [main] returns at once, with no
    request after the prompt; on any other line it answers the query and
    goes on to read the next line. *)
Theorem C10_session_ends_exactly :
  forall (w : World) (line : option string) (rest : list (option string))
         (st : State),
    (sessionEnds line = true <-> endsSession line) /\
    (sessionEnds line = true ->
       SmartSearch.main w (line :: rest) st = Ret tt (prompted st) /\
       SemanticSearch.main w (line :: rest) st = Ret tt (prompted st)) /\
    (sessionEnds line = false ->
       exists query,
         line = Some query /\
         SmartSearch.main w (line :: rest) st =
           (SmartSearch.answerQuery w query ;; SmartSearch.main w rest) (prompted st) /\
         SemanticSearch.main w (line :: rest) st =
           (SemanticSearch.answerQuery w query ;; SemanticSearch.main w rest) (prompted st)) /\
    SmartSearch.main w [] st = Ret tt (prompted st) /\
    SemanticSearch.main w [] st = Ret tt (prompted st).
Proof.
  intros w line rest st. split; [apply sessionEnds_spec |].
  split; [| split; [| split; reflexivity]].
  - intros H. rewrite smart_main_cons, semantic_main_cons, H. split; reflexivity.
  - intros H. destruct line as [query |]; [| discriminate H].
    exists query. split; [reflexivity |].
    rewrite smart_main_cons, semantic_main_cons, H. split; reflexivity.
Qed.

Lemma prefix_split p s :
  prefix p s = true <-> s = (p ++ drop (String.length p) s)%string.
Proof.
  revert s. induction p as [| c p IH]; intros s; simpl.
  - destruct s; split; auto.
  - destruct s as [| d s]; simpl.
    + split; discriminate.
    + destruct (ascii_dec c d) as [-> | Hne].
      * rewrite IH. split; [intros H; now rewrite <- H | intros H; now injection H].
      * split; [discriminate | intros H; congruence].
Qed.

Lemma prefix_app p post : prefix p (p ++ post) = true.
Proof.
  induction p as [| c p IH]; simpl.
  - now destruct post.
  - destruct (ascii_dec c c) as [_ | Hne]; [exact IH | contradiction].
Qed.

Lemma replace_unfold pat rep s :
  replace pat rep s =
  if prefix pat s then (rep ++ drop (String.length pat) s)%string
  else match s with
       | EmptyString => EmptyString
       | String c r => String c (replace pat rep r)
       end.
Proof. destruct s; reflexivity. Qed.

Lemma includes_unfold pat s :
  includes pat s =
  if prefix pat s then true
  else match s with
       | EmptyString => false
       | String _ r => includes pat r
       end.
Proof. destruct s; reflexivity. Qed.

Lemma replace_firstRemoved pat s :
  firstRemoved pat s (replace pat "" s).
Proof.
  induction s as [| c s IH]; rewrite replace_unfold.
  - destruct (prefix pat "") eqn:Hp.
    + right. apply prefix_split in Hp. exists "", (drop (String.length pat) "").
      split; [exact Hp |]. split; [reflexivity |]. intros; simpl; lia.
    + left. split; [| reflexivity]. now rewrite includes_unfold, Hp.
  - destruct (prefix pat (String c s)) eqn:Hp.
    + right. apply prefix_split in Hp.
      exists "", (drop (String.length pat) (String c s)).
      split; [exact Hp |]. split; [reflexivity |]. intros; simpl; lia.
    + destruct IH as [[Hno Heq] | (pre & post & Hs & Hr & Hmin)].
      * left. split; [now rewrite includes_unfold, Hp | now rewrite Heq].
      * right. exists (String c pre), post.
        split; [simpl; now rewrite <- Hs |].
        split; [simpl; now rewrite Hr |].
        intros pre' post' Hs'. destruct pre' as [| d pre'].
        -- simpl in Hs'. rewrite Hs', prefix_app in Hp. discriminate Hp.
        -- simpl in Hs'. injection Hs' as _ Hs'. apply Hmin in Hs'. simpl. lia.
Qed.

Lemma replace_absent pat rep s : includes pat s = false -> replace pat rep s = s.
Proof.
  induction s as [| c s IH]; rewrite replace_unfold, includes_unfold.
  - now destruct (prefix pat "").
  - destruct (prefix pat (String c s)); [discriminate |].
    intros H. now rewrite IH.
Qed.

Lemma trimStart_id s : startsWithSpace s = false -> trimStart s = s.
Proof. destruct s as [| c s]; simpl; [reflexivity |]. now intros ->. Qed.

Lemma trimEnd_id s : endsWithSpace s = false -> trimEnd s = s.
Proof.
  induction s as [| c s IH]; simpl; [reflexivity |].
  destruct s as [| d s].
  - simpl. now intros ->.
  - intros H. rewrite (IH H). reflexivity.
Qed.

Lemma trim_id s :
  startsWithSpace s = false -> endsWithSpace s = false -> trim s = s.
Proof. intros H1 H2. unfold trim. rewrite (trimStart_id _ H1). now apply trimEnd_id. Qed.

Lemma trimStart_no_lead s : startsWithSpace (trimStart s) = false.
Proof.
  induction s as [| c r IH]; [reflexivity |].
  simpl. destruct (isSpace c) eqn:E; [exact IH | simpl; exact E].
Qed.

Lemma trimEnd_no_trail s : endsWithSpace (trimEnd s) = false.
Proof.
  induction s as [| c r IH]; [reflexivity |].
  simpl. destruct (trimEnd r) as [| d t].
  - destruct (isSpace c) eqn:E; [reflexivity | simpl; exact E].
  - exact IH.
Qed.

Lemma trimEnd_keeps_lead s : startsWithSpace s = false -> startsWithSpace (trimEnd s) = false.
Proof.
  destruct s as [| c r]; [reflexivity |].
  simpl. intros E. destruct (trimEnd r); [rewrite E |]; simpl; exact E.
Qed.

Lemma trim_no_outer_space s :
  startsWithSpace (trim s) = false /\ endsWithSpace (trim s) = false.
Proof.
  unfold trim. split; [apply trimEnd_keeps_lead, trimStart_no_lead | apply trimEnd_no_trail].
Qed.

Lemma allSpace_app a b : allSpace a = true -> allSpace b = true -> allSpace (a ++ b) = true.
Proof.
  intros Ha Hb. induction a as [| c a IH]; [exact Hb |].
  simpl in *. apply andb_prop in Ha as [Hc Ha]. now rewrite Hc, IH.
Qed.

Lemma trimStart_allSpace s : allSpace s = true -> trimStart s = "".
Proof.
  induction s as [| c r IH]; [reflexivity |].
  simpl. intros H. apply andb_prop in H as [Hc Hr]. rewrite Hc. now apply IH.
Qed.

(** [trimStart] takes a run of white space off the front, [trimEnd] one
    off the end. *)
Lemma trimStart_spec s :
  exists pre, allSpace pre = true /\ s = (pre ++ trimStart s)%string.
Proof.
  induction s as [| c r (pre & Hpre & Hr)]; [now exists EmptyString |].
  simpl. destruct (isSpace c) eqn:Hc.
  - exists (String c pre). simpl. rewrite Hc, Hpre. split; [reflexivity | now rewrite <- Hr].
  - now exists EmptyString.
Qed.

Lemma trimEnd_spec s :
  exists post, allSpace post = true /\ s = (trimEnd s ++ post)%string.
Proof.
  induction s as [| c r (post & Hpost & Hr)]; [now exists EmptyString |].
  simpl. destruct (trimEnd r) as [| d t] eqn:Ht.
  - simpl in Hr. destruct (isSpace c) eqn:Hc.
    + exists (String c post). simpl. rewrite Hc, Hpost. split; [reflexivity | now rewrite <- Hr].
    + exists post. split; [exact Hpost | simpl; now rewrite <- Hr].
  - exists post. split; [exact Hpost |].
    change (String c r = String c (String d t ++ post)). now rewrite <- Hr.
Qed.

Lemma trim_spec s : trimmedOf s (trim s).
Proof.
  destruct (trim_no_outer_space s) as [Hlead Htrail].
  split; [exact Hlead |]. split; [exact Htrail |].
  destruct (trimStart_spec s) as (pre & Hpre & Hs).
  destruct (trimEnd_spec (trimStart s)) as (post & Hpost & Ht).
  exists pre, post. split; [exact Hpre |]. split; [exact Hpost |].
  unfold trim. now rewrite <- Ht.
Qed.

(** A string without outer white space is its own trimmed form, and no
    other string is. *)
Lemma trimmedOf_same s : trimmedOf s s <-> startsWithSpace s = false /\ endsWithSpace s = false.
Proof.
  split.
  - intros (H1 & H2 & _). now split.
  - intros [H1 H2]. split; [exact H1 |]. split; [exact H2 |].
    exists EmptyString, EmptyString. repeat split.
    clear. simpl. induction s as [| c s IH]; simpl; [reflexivity | now rewrite <- IH].
Qed.

Lemma trimStart_after_space pre s :
  allSpace pre = true -> trimStart (pre ++ s) = trimStart s.
Proof.
  induction pre as [| c pre IH]; [reflexivity |].
  simpl. intros H. apply andb_prop in H as [Hc Hpre]. rewrite Hc. now apply IH.
Qed.

Lemma trimEnd_allSpace s : allSpace s = true -> trimEnd s = "".
Proof.
  induction s as [| c r IH]; [reflexivity |].
  simpl. intros H. apply andb_prop in H as [Hc Hr]. now rewrite (IH Hr), Hc.
Qed.

Lemma trimEnd_before_space r post :
  endsWithSpace r = false -> allSpace post = true -> trimEnd (r ++ post) = r.
Proof.
  intros Hr Hpost. induction r as [| c r IH]; [now apply trimEnd_allSpace |].
  change (String c r ++ post)%string with (String c (r ++ post)).
  cbn [trimEnd]. destruct r as [| d r].
  - simpl in Hr. simpl. now rewrite (trimEnd_allSpace _ Hpost), Hr.
  - rewrite (IH Hr). reflexivity.
Qed.

(** The trimmed form of a string is unique: it is what [trim] returns. *)
Lemma trimmedOf_unique s r : trimmedOf s r -> r = trim s.
Proof.
  intros (Hlead & Htrail & pre & post & Hpre & Hpost & ->).
  unfold trim. rewrite (trimStart_after_space _ _ Hpre).
  destruct r as [| c r].
  - simpl. now rewrite (trimStart_allSpace _ Hpost).
  - change (String c r ++ post)%string with (String c (r ++ post)).
    simpl in Hlead. cbn [trimStart]. rewrite Hlead.
    change (String c (r ++ post)) with (String c r ++ post)%string.
    now rewrite (trimEnd_before_space _ _ Htrail Hpost).
Qed.

Lemma startsWith_call {A R} ev (oracle : list Event -> R) (k : R -> M A) :
  (forall r, Monotone (k r)) -> StartsWith ev (bind (call ev oracle) k).
Proof.
  intros Hk st. unfold bind, call.
  destruct (Hk (oracle (trace st)) (mkState (modelEnsured st) (trace st ++ [ev])))
    as [(d & Hd & _) _].
  exists d. rewrite Hd. simpl. now rewrite <- app_assoc.
Qed.

Lemma startsWith_bind {A B} ev (c : M A) (k : A -> M B) :
  StartsWith ev c -> (forall a, Monotone (k a)) -> StartsWith ev (bind c k).
Proof.
  intros Hc Hk st. unfold bind. destruct (Hc st) as [d Hd].
  destruct (c st) as [a st' | e st' | st']; simpl in *; [| now exists d ..].
  destruct (Hk a st') as [(d' & Hd' & _) _]. exists (d ++ d').
  rewrite Hd', Hd, <- app_assoc. reflexivity.
Qed.

Lemma startsWith_tryCatch {A} ev (c : M A) (h : Err -> M A) :
  StartsWith ev c -> (forall e, Monotone (h e)) -> StartsWith ev (tryCatch c h).
Proof.
  intros Hc Hh st. unfold tryCatch. destruct (Hc st) as [d Hd].
  destruct (c st) as [a st' | e st' | st']; simpl in *; [now exists d | | now exists d].
  destruct (Hh e st') as [(d' & Hd' & _) _]. exists (d ++ d').
  rewrite Hd', Hd, <- app_assoc. reflexivity.
Qed.

Lemma startsWith_searchWeb w q : StartsWith (EvSearch q) (searchWeb w q).
Proof. unfold searchWeb. apply startsWith_call. intros r. mono. Qed.

(** C9, as the code has it: in the script with the trigger, a query
    classified as a web search is sent to the search engine as
    [query.replace("search", "").trim()]: the first request of the turn
    carries the query with the first exact lower-case "search" taken out
    and the outer white space taken off.  When the query holds no
    lower-case "search" (it triggered through "Search", "SEARCH", ...)
    nothing is taken out but the outer white space: the query is sent as it
    is exactly when it neither begins nor ends with white space. *)
Theorem C9_search_terms :
  forall (w : World) (query : string) (st : State),
    includes "search" (toLowerCase query) = true ->
    (exists later,
        trace (finalState (SmartSearch.answerQuery w query st)) =
        trace st ++ EvSearch (SmartSearch.searchTerms query) :: later) /\
    (exists removed,
        firstRemoved "search" query removed /\
        trimmedOf removed (SmartSearch.searchTerms query)) /\
    (includes "search" query = false ->
       trimmedOf query (SmartSearch.searchTerms query) /\
       (SmartSearch.searchTerms query = query <->
        startsWithSpace query = false /\ endsWithSpace query = false)).
Proof.
  intros w query st Htrig. split; [| split].
  - unfold SmartSearch.answerQuery. rewrite Htrig. simpl negb. cbv iota.
    revert st. change (StartsWith (EvSearch (SmartSearch.searchTerms query))
                         (SmartSearch.webSearch w query)).
    unfold SmartSearch.webSearch.
    apply startsWith_tryCatch; [| intros e; mono].
    apply startsWith_bind; [apply startsWith_searchWeb | intros r; mono].
  - exists (replace "search" "" query).
    split; [apply replace_firstRemoved | apply trim_spec].
  - intros Hno. unfold SmartSearch.searchTerms. rewrite (replace_absent _ _ _ Hno).
    split; [apply trim_spec |]. split.
    + intros Hsame. apply trimmedOf_same. rewrite <- Hsame at 2. apply trim_spec.
    + intros [H1 H2]. now apply trim_id.
Qed.

(** "  SEARCH cats " triggers the web search and holds no lower-case
    "search": it is sent without its outer white space. *)
Lemma C9_search_terms_witness :
  (exists later,
      trace (finalState (SmartSearch.answerQuery (healthyWorld []) "  SEARCH cats "
                           initialState)) =
      trace initialState ++ EvSearch (SmartSearch.searchTerms "  SEARCH cats ") :: later) /\
  trimmedOf "  SEARCH cats " (SmartSearch.searchTerms "  SEARCH cats ").
Proof.
  destruct (C9_search_terms (healthyWorld []) "  SEARCH cats " initialState eq_refl)
    as (Hfirst & _ & Hsame).
  split; [exact Hfirst | exact (proj1 (Hsame eq_refl))].
Defined.

(** C9 fails as written: "  SEARCH cats " is classified as a web search
    through "SEARCH" and holds no lower-case "search", yet the search
    engine is not sent the query as typed but "SEARCH cats". *)
Lemma C9_not_sent_unmodified_counterexample :
  includes "search" (toLowerCase "  SEARCH cats ") = true /\
  includes "search" "  SEARCH cats " = false /\
  trace (finalState (SmartSearch.answerQuery (healthyWorld []) "  SEARCH cats "
                       initialState)) =
    [EvSearch "SEARCH cats"; EvGenerate (generalPrompt "  SEARCH cats ")] /\
  ("SEARCH cats" =? "  SEARCH cats ")%string = false.
Proof. repeat split; vm_compute; reflexivity. Qed.

Example searchTerms_lowercase :
  SmartSearch.searchTerms "search best pasta recipe" = "best pasta recipe".
Proof. reflexivity. Qed.

Example searchTerms_first_only :
  SmartSearch.searchTerms "Search for search engines, search well" =
  "Search for  engines, search well".
Proof. reflexivity. Qed.

Example searchTerms_upper_case_trimmed :
  SmartSearch.searchTerms "  SEARCH cats " = "SEARCH cats".
Proof. reflexivity. Qed.

(** ** The embedding client *)

Lemma ensure_cases w st :
  (registryOk w (trace st) = true /\
   exists st', ensureEmbeddingModelRunning w st = Ret tt st' /\
               modelEnsured st' = true) \/
  (registryOk w (trace st) = false /\
   exists st', ensureEmbeddingModelRunning w st = Exit st').
Proof.
  unfold registryOk, ensureEmbeddingModelRunning, tryCatch, bind, call. simpl.
  destruct (tags_reply w (trace st)) as [| status [names |]]; simpl.
  - right. eauto.
  - destruct (ok status); simpl; [| right; eauto].
    destruct (existsb (includes EMBEDDING_MODEL) names); simpl.
    + left. eauto.
    + destruct (pull_ok w (trace st ++ [EvTags])); simpl; [left | right]; eauto.
  - right. destruct (ok status); simpl; eauto.
Qed.

Lemma requestEmbedding_returns w t st :
  exists v,
    requestEmbedding w t st =
    Ret v (mkState (modelEnsured st) (trace st ++ [EvEmbed t])).
Proof.
  unfold requestEmbedding, tryCatch, bind, call. simpl.
  destruct (embed_reply w (trace st) t) as [| status [data |]]; simpl; eauto.
  - destruct (ok status); simpl; eauto.
  - destruct (ok status); simpl; eauto.
Qed.

Lemma getEmbedding_unfold w t st :
  getEmbedding w t st =
  if modelEnsured st then requestEmbedding w t st
  else match ensureEmbeddingModelRunning w st with
       | Ret _ st1 => requestEmbedding w t st1
       | Throw e st1 => Throw e st1
       | Exit st1 => Exit st1
       end.
Proof.
  unfold getEmbedding, bind, getModelEnsured.
  destruct (modelEnsured st); reflexivity.
Qed.

Lemma getEmbedding_cases w t st :
  (exists v st', getEmbedding w t st = Ret v st' /\ modelEnsured st' = true) \/
  (exists st', getEmbedding w t st = Exit st' /\
               modelEnsured st = false /\ registryOk w (trace st) = false).
Proof.
  rewrite getEmbedding_unfold.
  destruct (modelEnsured st) eqn:Hens.
  - left. destruct (requestEmbedding_returns w t st) as [v Hv].
    rewrite Hv. exists v. eexists. split; [reflexivity | exact Hens].
  - destruct (ensure_cases w st) as [(Hok & st1 & Hrun & Hens1) | (Hbad & st1 & Hrun)];
      rewrite Hrun.
    + left. destruct (requestEmbedding_returns w t st1) as [v Hv].
      rewrite Hv. exists v. eexists. split; [reflexivity | exact Hens1].
    + right. eauto.
Qed.

(** ** The page fetcher *)

Lemma fetchPageContent_unfold w u st :
  fetchPageContent w u st =
  let st1 := mkState (modelEnsured st) (trace st ++ [EvPageGet u]) in
  match page_reply w (trace st) u with
  | PageNetFailure | PageTimeout | PageResp _ None => Ret (emptySource u) st1
  | PageResp _ (Some html) =>
      if cheerio_fails w html then Ret (emptySource u) st1
      else match getEmbedding w (processedText w html) st1 with
           | Ret v st' => Ret (mkSource u (processedText w html) v) st'
           | Throw _ st' => Ret (emptySource u) st'
           | Exit st' => Exit st'
           end
  end.
Proof.
  unfold fetchPageContent, tryCatch, bind at 1, call. simpl.
  destruct (page_reply w (trace st) u) as [| | status [html |]]; simpl; auto.
  destruct (cheerio_fails w html); simpl; auto.
  unfold bind. destruct (getEmbedding w _ _); reflexivity.
Qed.

Lemma fetchPageContent_cases w u st :
  (exists content st', fetchPageContent w u st = Ret content st' /\ url content = u) \/
  (exists st', fetchPageContent w u st = Exit st' /\
               modelEnsured st = false /\
               registryOk w (trace st ++ [EvPageGet u]) = false).
Proof.
  rewrite fetchPageContent_unfold. cbv zeta.
  destruct (page_reply w (trace st) u) as [| | status [html |]]; eauto.
  destruct (cheerio_fails w html); eauto.
  destruct (getEmbedding_cases w (processedText w html)
              (mkState (modelEnsured st) (trace st ++ [EvPageGet u])))
    as [(v & st' & Hrun & _) | (st' & Hrun & Hens & Hbad)]; rewrite Hrun; eauto.
Qed.

(** The fetcher never lets an exception out. *)
Lemma fetchPageContent_never_throws w u st e st' :
  fetchPageContent w u st <> Throw e st'.
Proof.
  destruct (fetchPageContent_cases w u st)
    as [(c & s & H & _) | (s & H & _)]; rewrite H; discriminate.
Qed.

(** A fetch that times out, cannot connect, cannot read the body or
    cannot extract the text yields the empty Source. *)
Lemma fetchPageContent_failure w u st :
  match page_reply w (trace st) u with
  | PageNetFailure | PageTimeout | PageResp _ None => True
  | PageResp _ (Some html) => cheerio_fails w html = true
  end ->
  fetchPageContent w u st =
  Ret (emptySource u) (mkState (modelEnsured st) (trace st ++ [EvPageGet u])).
Proof.
  rewrite fetchPageContent_unfold. cbv zeta.
  destruct (page_reply w (trace st) u) as [| | status [html |]]; auto.
  now intros ->.
Qed.

Lemma monotone_ready {A} w (c : M A) st :
  Monotone c -> modelReady w st -> modelReady w (finalState (c st)).
Proof.
  intros Hc [Hens | Hreg]; [left | now right].
  now apply (Hc st).
Qed.

Lemma fetchPageContent_ready w u st :
  modelReady w st ->
  exists content st',
    fetchPageContent w u st = Ret content st' /\ modelReady w st'.
Proof.
  intros Hready.
  pose proof (monotone_ready w _ st (mono_fetchPageContent w u) Hready) as Hkeep.
  destruct (fetchPageContent_cases w u st)
    as [(c & s & H & _) | (s & H & Hens & Hbad)].
  - rewrite H in Hkeep. eauto.
  - destruct Hready as [Hens' | Hreg]; [congruence |].
    rewrite Hreg in Hbad. discriminate.
Qed.

(** Whatever the status of the answer, a page whose body can be read and
    parsed is returned with its text. *)
Lemma fetchPageContent_status_ignored w u st status html :
  page_reply w (trace st) u = PageResp status (Some html) ->
  cheerio_fails w html = false ->
  modelReady w st ->
  exists v st',
    fetchPageContent w u st = Ret (mkSource u (processedText w html) v) st'.
Proof.
  intros Hpage Hparse Hready.
  rewrite fetchPageContent_unfold, Hpage, Hparse. cbv zeta.
  destruct (getEmbedding_cases w (processedText w html)
              (mkState (modelEnsured st) (trace st ++ [EvPageGet u])))
    as [(v & st' & -> & _) | (st' & _ & Hens & Hbad)]; [eauto |].
  destruct Hready as [H | H]; [simpl in Hens; congruence |].
  rewrite H in Hbad. discriminate.
Qed.

(** C1: a page that answers with a non-2xx status is not treated as a
    failure.  The sample page "http://gone.example" answers 404 with an
    error page of 120 characters; [fetchPageContent] returns that page's
    text and its embedding, and the Source passes the validity test. *)
Theorem C1_error_page_is_kept :
  page_reply (healthyWorld []) [] "http://gone.example" = PageResp 404 (Some longText) /\
  ok 404 = false /\
  exists st',
    fetchPageContent (healthyWorld []) "http://gone.example" initialState =
      Ret (mkSource "http://gone.example" longText [1%float; 0%float]) st' /\
    isValid (mkSource "http://gone.example" longText [1%float; 0%float]) = true.
Proof.
  split; [reflexivity |]. split; [reflexivity |].
  eexists. split; [vm_compute; reflexivity | reflexivity].
Qed.

(** ** The source collectors *)

Lemma smart_collectSources_cons w required r pending' sources st :
  SmartSearch.collectSources w required (r :: pending') sources st =
  if length sources <? required then
    match fetchPageContent w (sr_url r) st with
    | Ret content st1 =>
        let sources' := if isValid content then sources ++ [content] else sources in
        if (length pending' =? 0) && (length sources' <? required)
        then Ret sources' st1
        else SmartSearch.collectSources w required pending' sources' st1
    | Throw _ st1 =>
        if (length pending' =? 0) && (length sources <? required)
        then Ret sources st1
        else SmartSearch.collectSources w required pending' sources st1
    | Exit st1 => Exit st1
    end
  else Ret sources st.
Proof.
  simpl. destruct (length sources <? required) eqn:Hlt; [| reflexivity].
  unfold bind at 1, tryCatch, bind at 1.
  destruct (fetchPageContent w (sr_url r) st) as [content st1 | e st1 | st1];
    try reflexivity.
  - unfold ret at 1. cbv beta iota. destruct ((length pending' =? 0) && _); reflexivity.
  - unfold ret at 1. rewrite Hlt. destruct ((length pending' =? 0) && _); reflexivity.
Qed.

Lemma fetchLinks_cons w l rest sources st :
  SemanticSearch.fetchLinks w (l :: rest) sources st =
  match fetchPageContent w (sr_url l) st with
  | Ret content st1 =>
      SemanticSearch.fetchLinks w rest
        (if isValid content then sources ++ [content] else sources) st1
  | Throw e st1 => Throw e st1
  | Exit st1 => Exit st1
  end.
Proof. reflexivity. Qed.

(** The loop of the script with the trigger, from any accumulator. *)
Lemma smart_collectSources_scan w required pending :
  forall acc st sources st',
    SmartSearch.collectSources w required pending acc st = Ret sources st' ->
    exists k contents,
      Fetches w st (map sr_url (firstn k pending)) contents st' /\
      sources = acc ++ filter isValid contents /\
      k <= length pending /\
      (required <= length sources \/ k = length pending) /\
      (forall j, j < k ->
         length (acc ++ filter isValid (firstn j contents)) < required).
Proof.
  induction pending as [| r pending' IH]; intros acc st sources st' Hrun.
  - simpl in Hrun. injection Hrun as <- <-.
    exists 0, []. simpl. rewrite app_nil_r.
    repeat split; auto using Fetches_nil; lia.
  - rewrite smart_collectSources_cons in Hrun.
    destruct (Nat.ltb_spec (length acc) required) as [Hlt | Hge].
    + destruct (fetchPageContent w (sr_url r) st) as [content st1 | e st1 | st1] eqn:Hfetch;
        [| now apply fetchPageContent_never_throws in Hfetch | discriminate Hrun].
      cbv zeta in Hrun.
      set (acc' := if isValid content then acc ++ [content] else acc) in *.
      assert (Hacc' : acc' = acc ++ filter isValid [content]).
      { unfold acc'. simpl. destruct (isValid content); [reflexivity | now rewrite app_nil_r]. }
      destruct ((length pending' =? 0) && (length acc' <? required)) eqn:Hstop.
      * injection Hrun as <- <-.
        apply andb_prop in Hstop as [Hnil _]. apply Nat.eqb_eq in Hnil.
        exists 1, [content]. simpl.
        destruct pending'; [| discriminate Hnil]. simpl.
        split; [eauto using Fetches_cons, Fetches_nil |].
        split; [exact Hacc' |].
        split; [lia |]. split; [now right |].
        intros j Hj. assert (j = 0) as -> by lia. simpl. rewrite app_nil_r. exact Hlt.
      * apply IH in Hrun as (k & contents & Hf & Hs & Hk & Hq & Hbelow).
        exists (S k), (content :: contents). simpl.
        split; [eauto using Fetches_cons |].
        split.
        { rewrite Hs, Hacc'. simpl.
          destruct (isValid content); simpl; now rewrite <- ?app_assoc, ?app_nil_r. }
        split; [lia |].
        split; [destruct Hq; [now left | right; lia] |].
        intros [| j] Hj; simpl.
        -- rewrite app_nil_r. exact Hlt.
        -- specialize (Hbelow j ltac:(lia)). rewrite Hacc' in Hbelow. simpl in Hbelow.
           destruct (isValid content); simpl;
             now rewrite <- ?app_assoc, ?app_nil_r in Hbelow.
    + injection Hrun as <- <-.
      exists 0, []. simpl. rewrite app_nil_r.
      repeat split; auto using Fetches_nil; lia.
Qed.


Lemma smart_collectSources_ready w required pending :
  forall acc st,
    modelReady w st ->
    exists sources st',
      SmartSearch.collectSources w required pending acc st = Ret sources st' /\
      modelReady w st'.
Proof.
  induction pending as [| r pending' IH]; intros acc st Hready.
  - simpl. unfold ret. eauto.
  - rewrite smart_collectSources_cons.
    destruct (length acc <? required); [| eauto].
    destruct (fetchPageContent_ready w (sr_url r) st Hready) as (content & st1 & Hfetch & Hready1).
    rewrite Hfetch. cbv zeta.
    destruct ((length pending' =? 0) && _); eauto.
Qed.

(** The loop of the script that always searches, from any accumulator. *)
Lemma fetchLinks_all w links :
  forall acc st sources st',
    SemanticSearch.fetchLinks w links acc st = Ret sources st' ->
    exists contents,
      Fetches w st (map sr_url links) contents st' /\
      sources = acc ++ filter isValid contents.
Proof.
  induction links as [| l rest IH]; intros acc st sources st' Hrun.
  - simpl in Hrun. injection Hrun as <- <-. exists []. simpl.
    rewrite app_nil_r. auto using Fetches_nil.
  - rewrite fetchLinks_cons in Hrun.
    destruct (fetchPageContent w (sr_url l) st) as [content st1 | e st1 | st1] eqn:Hfetch;
      try discriminate Hrun.
    apply IH in Hrun as (contents & Hf & Hs).
    exists (content :: contents). simpl. split; [eauto using Fetches_cons |].
    rewrite Hs. destruct (isValid content); simpl; now rewrite <- ?app_assoc.
Qed.

Lemma fetchLinks_ready w links :
  forall acc st,
    modelReady w st ->
    exists sources st',
      SemanticSearch.fetchLinks w links acc st = Ret sources st' /\
      modelReady w st'.
Proof.
  induction links as [| l rest IH]; intros acc st Hready.
  - simpl. unfold ret. eauto.
  - rewrite fetchLinks_cons.
    destruct (fetchPageContent_ready w (sr_url l) st Hready) as (content & st1 & Hfetch & Hready1).
    rewrite Hfetch. eauto.
Qed.


Lemma pageGets_app t1 t2 : pageGets (t1 ++ t2) = pageGets t1 ++ pageGets t2.
Proof. apply flat_map_app. Qed.


Lemma fetchPageContent_trace w u st :
  exists later,
    trace (finalState (fetchPageContent w u st)) = trace st ++ EvPageGet u :: later /\
    forallb isEmbeddingEvent later = true.
Proof.
  rewrite fetchPageContent_unfold. cbv zeta.
  destruct (page_reply w (trace st) u) as [| | status [html |]];
    try (exists []; split; reflexivity).
  destruct (cheerio_fails w html); [exists []; split; reflexivity |].
  destruct (emits_getEmbedding w (processedText w html)
              (mkState (modelEnsured st) (trace st ++ [EvPageGet u])))
    as [(d & Hd & HP) _].
  exists d. split; [| exact HP].
  destruct (getEmbedding w (processedText w html) _); simpl in *;
    rewrite Hd, <- app_assoc; reflexivity.
Qed.





(** C3: every Source either collector returns is valid: its text is
    longer than 100 characters. *)
Theorem C3_collected_sources_valid :
  forall (w : World) (required : nat) (results : list SearchResult)
         (st : State) (sources : list Source) (st' : State),
    SmartSearch.collectSources w required results [] st = Ret sources st' \/
    SemanticSearch.collectSources w results st = Ret sources st' ->
    Forall (fun s => 100 < String.length (text s)) sources.
Proof.
  intros w required results st sources st' [Hrun | Hrun].
  - destruct (smart_collectSources_scan _ _ _ _ _ _ _ Hrun) as (k & contents & _ & Hs & _).
    simpl in Hs. subst sources. apply Forall_forall. intros s Hin.
    apply filter_In in Hin as [_ Hv]. now apply Nat.ltb_lt in Hv.
  - destruct (fetchLinks_all _ _ _ _ _ _ Hrun) as (contents & _ & Hs).
    simpl in Hs. subst sources. apply Forall_forall. intros s Hin.
    apply filter_In in Hin as [_ Hv]. now apply Nat.ltb_lt in Hv.
Qed.

(** The three sample results yield two Sources, both valid. *)
Lemma C3_collected_sources_valid_witness :
  Forall (fun s => 100 < String.length (text s))
    [mkSource "http://a.example" longText [1%float; 0%float];
     mkSource "http://b.example" longText [1%float; 0%float]].
Proof.
  eapply (C3_collected_sources_valid (healthyWorld threeUrls) 10 (resultsOf threeUrls)
            initialState).
  left. vm_compute. reflexivity.
Defined.

(** ** Binary64 arithmetic

    Facts about the IEEE 754 operations the ranking relies on, derived
    from the specification of the primitive floats. *)

Module FloatFacts.
Local Open Scope Z_scope.

Lemma digits2_pos_lower (m : positive) :
  2 ^ (Zpos (digits2_pos m) - 1) <= Zpos m.
Proof.
  induction m as [m IH | m IH |]; simpl digits2_pos.
  - rewrite Pos2Z.inj_succ.
    replace (Z.succ (Zpos (digits2_pos m)) - 1) with (Z.succ (Zpos (digits2_pos m) - 1)) by lia.
    rewrite Z.pow_succ_r by lia. lia.
  - rewrite Pos2Z.inj_succ.
    replace (Z.succ (Zpos (digits2_pos m)) - 1) with (Z.succ (Zpos (digits2_pos m) - 1)) by lia.
    rewrite Z.pow_succ_r by lia. lia.
  - simpl. lia.
Qed.

Lemma digits2_pos_upper (m : positive) :
  Zpos m < 2 ^ Zpos (digits2_pos m).
Proof.
  induction m as [m IH | m IH |]; simpl digits2_pos.
  - rewrite Pos2Z.inj_succ, Z.pow_succ_r by lia. lia.
  - rewrite Pos2Z.inj_succ, Z.pow_succ_r by lia. lia.
  - simpl. lia.
Qed.

Lemma shr_1_lower (t : Z) (mrs : shr_record) :
  0 < t -> t * 2 <= shr_m mrs -> t <= shr_m (shr_1 mrs).
Proof.
  destruct mrs as [m r s]. simpl. intros Ht H.
  destruct m as [| [p | p |] | p]; simpl; lia.
Qed.

Lemma pow2_xI (p : positive) : 2 ^ Zpos p~1 = 2 ^ Zpos p * 2 ^ Zpos p * 2.
Proof.
  replace (Zpos p~1) with (Zpos p + Zpos p + 1) by lia.
  rewrite !Z.pow_add_r by lia. reflexivity.
Qed.

Lemma pow2_xO (p : positive) : 2 ^ Zpos p~0 = 2 ^ Zpos p * 2 ^ Zpos p.
Proof.
  replace (Zpos p~0) with (Zpos p + Zpos p) by lia.
  rewrite !Z.pow_add_r by lia. reflexivity.
Qed.

Lemma iter_shr_1_lower (p : positive) :
  forall (t : Z) (mrs : shr_record),
    0 < t -> t * 2 ^ Zpos p <= shr_m mrs -> t <= shr_m (iter_pos shr_1 p mrs).
Proof.
  induction p as [p IH | p IH |]; intros t mrs Ht H; simpl.
  - assert (Hp : 0 < 2 ^ Zpos p) by (apply Z.pow_pos_nonneg; lia).
    rewrite pow2_xI in H.
    apply IH; [exact Ht |]. apply IH; [nia |]. apply shr_1_lower; [nia |]. nia.
  - assert (Hp : 0 < 2 ^ Zpos p) by (apply Z.pow_pos_nonneg; lia).
    rewrite pow2_xO in H.
    apply IH; [exact Ht |]. apply IH; [nia |]. nia.
  - apply shr_1_lower; [exact Ht |]. exact H.
Qed.

Lemma shr_m_of_loc (m : Z) (l : location) : shr_m (shr_record_of_loc m l) = m.
Proof. destruct l as [| []]; reflexivity. Qed.

Lemma fexp_ge_emin (e : Z) : emin <= fexp prec emax e.
Proof. unfold fexp, SpecFloat.emin, prec, emax. lia. Qed.

Lemma shr_fexp_lower (m : positive) (e : Z) (l : location) :
  emin <= e ->
  1 <= shr_m (fst (shr_fexp prec emax (Zpos m) e l)) /\
  emin <= snd (shr_fexp prec emax (Zpos m) e l).
Proof.
  intros He. unfold shr_fexp, shr. simpl Zdigits2.
  pose proof (digits2_pos_lower m) as Hlow.
  pose proof (fexp_ge_emin (Zpos (digits2_pos m) + e)) as Hfexp.
  destruct (fexp prec emax (Zpos (digits2_pos m) + e) - e) as [| p | p] eqn:Hn; simpl.
  - rewrite shr_m_of_loc. lia.
  - split; [| lia].
    apply iter_shr_1_lower; [lia |]. rewrite shr_m_of_loc.
    assert (Hp : Zpos p <= Zpos (digits2_pos m) - 1).
    { unfold fexp, SpecFloat.emin, prec, emax in *. lia. }
    pose proof (Z.pow_le_mono_r 2 (Zpos p) (Zpos (digits2_pos m) - 1) ltac:(lia) Hp).
    lia.
  - rewrite shr_m_of_loc. lia.
Qed.

Lemma round_nearest_even_lower (m : Z) (l : location) :
  m <= round_nearest_even m l.
Proof.
  unfold round_nearest_even. destruct l as [| []]; try lia.
  destruct (Z.even m); lia.
Qed.

Lemma binary_round_aux_shape (s : bool) (m : Z) (e : Z) (l : location) :
  let r := binary_round_aux prec emax s m e l in
  r = S754_zero s \/ r = S754_infinity s \/ r = S754_nan \/
  exists m' e', r = S754_finite s m' e'.
Proof.
  unfold binary_round_aux.
  destruct (shr_fexp prec emax m e l) as [mrs' e'].
  destruct (shr_fexp prec emax _ e' loc_Exact) as [mrs'' e''].
  destruct (shr_m mrs'') as [| p | p]; auto.
  destruct (e'' <=? emax - prec); eauto 6.
Qed.

Lemma binary_round_aux_nonzero (s : bool) (m : positive) (e : Z) (l : location) :
  emin <= e ->
  let r := binary_round_aux prec emax s (Zpos m) e l in
  r = S754_infinity s \/ exists m' e', r = S754_finite s m' e'.
Proof.
  intros He. unfold binary_round_aux.
  destruct (shr_fexp_lower m e l He) as [H1 He'].
  destruct (shr_fexp prec emax (Zpos m) e l) as [mrs' e']. simpl in H1, He'.
  pose proof (round_nearest_even_lower (shr_m mrs') (loc_of_shr_record mrs')) as Hr.
  destruct (round_nearest_even (shr_m mrs') (loc_of_shr_record mrs')) as [| m2 | m2];
    try lia.
  destruct (shr_fexp_lower m2 e' loc_Exact He') as [H2 _].
  destruct (shr_fexp prec emax (Zpos m2) e' loc_Exact) as [mrs'' e'']. simpl in H2.
  destruct (shr_m mrs'') as [| p | p]; try lia.
  destruct (e'' <=? emax - prec); eauto.
Qed.

Lemma binary_round_nonzero (s : bool) (m : positive) (e : Z) :
  emin <= e ->
  let r := binary_round prec emax s m e in
  r = S754_infinity s \/ exists m' e', r = S754_finite s m' e'.
Proof.
  intros He. unfold binary_round, shl_align.
  pose proof (fexp_ge_emin (Zpos (digits2_pos m) + e)) as Hfexp.
  destruct (fexp prec emax (Zpos (digits2_pos m) + e) - e) eqn:Hn;
    apply binary_round_aux_nonzero; lia.
Qed.

Lemma binary_round_shape (s : bool) (m : positive) (e : Z) :
  let r := binary_round prec emax s m e in
  r = S754_zero s \/ r = S754_infinity s \/ r = S754_nan \/
  exists m' e', r = S754_finite s m' e'.
Proof.
  unfold binary_round.
  destruct (shl_align m e _) as [mz ez]. apply binary_round_aux_shape.
Qed.

Lemma iter_xO_pow (m d : positive) : Zpos (Pos.iter xO m d) = Zpos m * 2 ^ Zpos d.
Proof.
  induction d as [| d IH] using Pos.peano_ind.
  - simpl. lia.
  - rewrite Pos.iter_succ, Pos2Z.inj_xO, IH, Pos2Z.inj_succ, Z.pow_succ_r by lia. lia.
Qed.

Lemma shl_align_fst (m : positive) (e ez : Z) :
  ez <= e -> Zpos (fst (shl_align m e ez)) = Zpos m * 2 ^ (e - ez).
Proof.
  intros H. unfold shl_align.
  destruct (ez - e) as [| d | d] eqn:Hd; simpl.
  - replace (e - ez) with 0 by lia. simpl. lia.
  - lia.
  - rewrite iter_xO_pow. replace (e - ez) with (Zpos d) by lia. reflexivity.
Qed.

Lemma valid_finite_facts (s : bool) (m : positive) (e : Z) :
  valid_binary (S754_finite s m e) = true ->
  emin <= e /\
  Zpos (digits2_pos m) <= 53 /\
  (emin < e -> Zpos (digits2_pos m) = 53).
Proof.
  simpl. unfold bounded, canonical_mantissa. intros H.
  apply andb_prop in H as [H _]. apply Z.eqb_eq in H.
  unfold fexp, SpecFloat.emin, prec, emax in *. lia.
Qed.

(** Two valid finite floats, aligned on the smaller exponent, compare as
    their exponents do. *)
Lemma aligned_compare (sy sx : bool) (my mx : positive) (ey ex : Z) :
  valid_binary (S754_finite sy my ey) = true ->
  valid_binary (S754_finite sx mx ex) = true ->
  let ez := Z.min ey ex in
  let a := Zpos (fst (shl_align my ey ez)) in
  let b := Zpos (fst (shl_align mx ex ez)) in
  (ey = ex -> a = Zpos my /\ b = Zpos mx) /\
  (ey < ex -> a < b) /\
  (ex < ey -> b < a).
Proof.
  intros Hy Hx ez a b.
  apply valid_finite_facts in Hy as (Hey & Hdy & Hny).
  apply valid_finite_facts in Hx as (Hex & Hdx & Hnx).
  subst a b. rewrite !shl_align_fst by (subst ez; lia).
  pose proof (digits2_pos_upper my) as Uy. pose proof (digits2_pos_lower my) as Ly.
  pose proof (digits2_pos_upper mx) as Ux. pose proof (digits2_pos_lower mx) as Lx.
  pose proof (Z.pow_le_mono_r 2 _ 53 ltac:(lia) Hdy) as Py.
  pose proof (Z.pow_le_mono_r 2 _ 53 ltac:(lia) Hdx) as Px.
  change (2 ^ 53) with 9007199254740992 in *.
  split; [| split]; intros Hcmp.
  - subst ez. rewrite Hcmp, Z.min_id, Z.sub_diag. simpl. lia.
  - subst ez. rewrite Z.min_l by lia. rewrite Z.sub_diag. simpl (2 ^ 0).
    rewrite (Hnx ltac:(lia)) in Lx. change (2 ^ (53 - 1)) with 4503599627370496 in Lx.
    pose proof (Z.pow_le_mono_r 2 1 (ex - ey) ltac:(lia) ltac:(lia)) as P2.
    simpl (2 ^ 1) in P2. nia.
  - subst ez. rewrite Z.min_r by lia. rewrite Z.sub_diag. simpl (2 ^ 0).
    rewrite (Hny ltac:(lia)) in Ly. change (2 ^ (53 - 1)) with 4503599627370496 in Ly.
    pose proof (Z.pow_le_mono_r 2 1 (ey - ex) ltac:(lia) ltac:(lia)) as P2.
    simpl (2 ^ 1) in P2. nia.
Qed.

Lemma SFltb_finite_aligned (sy sx : bool) (my mx : positive) (ey ex : Z) :
  valid_binary (S754_finite sy my ey) = true ->
  valid_binary (S754_finite sx mx ex) = true ->
  let ez := Z.min ey ex in
  SFltb (S754_finite sy my ey) (S754_finite sx mx ex) =
  (cond_Zopp sy (Zpos (fst (shl_align my ey ez))) -
   cond_Zopp sx (Zpos (fst (shl_align mx ex ez))) <? 0).
Proof.
  intros Hy Hx ez.
  destruct (aligned_compare sy sx my mx ey ex Hy Hx) as (Heq & Hlt & Hgt).
  fold ez in Heq, Hlt, Hgt.
  set (a := Zpos (fst (shl_align my ey ez))) in *.
  set (b := Zpos (fst (shl_align mx ex ez))) in *.
  assert (Ha : 0 < a) by (unfold a; lia).
  assert (Hb : 0 < b) by (unfold b; lia).
  destruct (Z.ltb_spec (cond_Zopp sy a - cond_Zopp sx b) 0) as [HD | HD];
    unfold SFltb, SFcompare; destruct sy, sx; unfold cond_Zopp in HD;
    try reflexivity; try lia;
    destruct (Z.compare_spec ey ex) as [E | E | E];
    try (specialize (Hlt E)); try (specialize (Hgt E));
    try reflexivity; try lia;
    destruct (Heq E) as [Ea Eb]; rewrite Ea, Eb in HD;
    change (Pos.compare_cont Eq my mx) with (Pos.compare my mx);
    destruct (Pos.compare_spec my mx) as [F | F | F];
    try reflexivity; lia.
Qed.

Lemma SFltb_normalize_zero (d ez : Z) :
  emin <= ez ->
  SFltb (binary_normalize prec emax d ez false) (S754_zero false) = (d <? 0).
Proof.
  intros He. destruct d as [| p | p]; simpl binary_normalize.
  - reflexivity.
  - destruct (binary_round_shape false p ez) as [-> | [-> | [-> | (m' & e' & ->)]]];
      reflexivity.
  - destruct (binary_round_nonzero true p ez He) as [-> | (m' & e' & ->)];
      reflexivity.
Qed.

(** The sign of a difference tells the order of its operands. *)
Lemma SFsub_ltb_zero (Y X : spec_float) :
  valid_binary Y = true -> valid_binary X = true ->
  Y <> S754_nan -> X <> S754_nan ->
  SFltb (SF64sub Y X) (S754_zero false) = SFltb Y X.
Proof.
  intros Hy Hx Ny Nx.
  destruct Y as [sy | sy | | sy my ey]; [| | contradiction |];
    (destruct X as [sx | sx | | sx mx ex]; [| | contradiction |]);
    try (destruct sy, sx; reflexivity);
    try (destruct sy; reflexivity);
    try (destruct sx; reflexivity).
  rewrite (SFltb_finite_aligned sy sx my mx ey ex Hy Hx).
  unfold SF64sub, SFsub. cbv zeta.
  apply SFltb_normalize_zero.
  apply valid_finite_facts in Hy as (Hey & _). apply valid_finite_facts in Hx as (Hex & _).
  lia.
Qed.

Lemma compare_cont_flip (p q : positive) :
  PosDef.Pos.compare_cont Eq q p = CompOpp (PosDef.Pos.compare_cont Eq p q).
Proof. symmetry. exact (Pos.compare_cont_antisym p q Eq). Qed.

Lemma SFcompare_antisym (X Y : spec_float) :
  SFcompare Y X = option_map CompOpp (SFcompare X Y).
Proof.
  destruct X as [sx | sx | | sx mx ex], Y as [sy | sy | | sy my ey]; simpl;
    try reflexivity;
    try (destruct sx; reflexivity);
    try (destruct sy; reflexivity);
    try (destruct sx, sy; reflexivity).
  destruct sx, sy; try reflexivity;
    rewrite (Z.compare_antisym ex ey), (compare_cont_flip mx my);
    destruct (ex ?= ey); simpl; try reflexivity;
    destruct (PosDef.Pos.compare_cont Eq mx my); reflexivity.
Qed.

Lemma Prim2SF_zero : Prim2SF 0%float = S754_zero false.
Proof. reflexivity. Qed.

Lemma not_nan_spec (x : float) : is_nan x = false -> Prim2SF x <> S754_nan.
Proof.
  unfold is_nan. rewrite eqb_spec. intros H E. rewrite E in H. discriminate H.
Qed.

(** For operands that are not NaN, the sign of [y - x] tells whether
    [y < x]. *)
Lemma sub_ltb_zero (x y : float) :
  is_nan x = false -> is_nan y = false ->
  (y - x <? 0)%float = (y <? x)%float.
Proof.
  intros Hx Hy. rewrite !ltb_spec, sub_spec, Prim2SF_zero.
  apply SFsub_ltb_zero; auto using Prim2SF_valid, not_nan_spec.
Qed.

Lemma ltb_leb (x y : float) : (x <? y)%float = true -> (x <=? y)%float = true.
Proof.
  rewrite ltb_spec, leb_spec. unfold SFltb, SFleb.
  now destruct (SFcompare (Prim2SF x) (Prim2SF y)) as [[] |].
Qed.

Lemma SFcompare_defined (X Y : spec_float) :
  X <> S754_nan -> Y <> S754_nan -> SFcompare X Y <> None.
Proof.
  intros HX HY.
  destruct X as [sx | sx | | sx mx ex]; [| | contradiction |];
    (destruct Y as [sy | sy | | sy my ey]; [| | contradiction |]);
    discriminate.
Qed.

Lemma not_ltb_leb (x y : float) :
  is_nan x = false -> is_nan y = false ->
  (y <? x)%float = false -> (x <=? y)%float = true.
Proof.
  intros Hx Hy. apply not_nan_spec in Hx, Hy.
  rewrite ltb_spec, leb_spec. unfold SFltb, SFleb.
  rewrite (SFcompare_antisym (Prim2SF x) (Prim2SF y)).
  pose proof (SFcompare_defined _ _ Hx Hy) as Hdef.
  destruct (SFcompare (Prim2SF x) (Prim2SF y)) as [[] |]; simpl; congruence.
Qed.

End FloatFacts.

(** ** Cosine similarity *)

Lemma at_index_middle (pre b : list float) (y : float) :
  at_index (pre ++ y :: b) (length pre) = y.
Proof. unfold at_index. apply nth_middle. Qed.

Lemma reduceFrom_dot (a : list float) :
  forall (pre b : list float) (acc : float),
    length a = length b ->
    reduceFrom (length pre)
      (fun sum x i => (sum + x * at_index (pre ++ b) i)%float) acc a =
    dotFrom acc a b.
Proof.
  induction a as [| x a IH]; intros pre b acc Hlen.
  - reflexivity.
  - destruct b as [| y b]; [discriminate Hlen |].
    simpl. rewrite at_index_middle.
    replace (pre ++ y :: b) with ((pre ++ [y]) ++ b) by now rewrite <- app_assoc.
    replace (S (length pre)) with (length (pre ++ [y]))
      by (rewrite length_app; simpl; lia).
    apply IH. now injection Hlen.
Qed.

Lemma reduceFrom_square (a : list float) :
  forall (i : nat) (acc : float),
    reduceFrom i (fun sum x _ => (sum + x * x)%float) acc a = dotFrom acc a a.
Proof.
  induction a as [| x a IH]; intros i acc; simpl; [reflexivity | apply IH].
Qed.

Lemma cosineSimilarity_degenerate (a b : list float) :
  length a <> length b \/ a = [] \/ b = [] -> cosineSimilarity a b = 0%float.
Proof.
  intros H. unfold cosineSimilarity.
  destruct (Nat.eqb_spec (length a) (length b)) as [E | E]; [| reflexivity].
  destruct a as [| x a]; [reflexivity |].
  destruct H as [H | [H | H]]; [contradiction | discriminate H |].
  subst b. discriminate E.
Qed.

Lemma reduce_dot (a b : list float) :
  length a = length b ->
  reduce (fun sum x i => (sum + x * at_index b i)%float) 0%float a = dotProduct a b.
Proof. intros E. exact (reduceFrom_dot a [] b 0%float E). Qed.

Lemma reduce_square (a : list float) :
  reduce (fun sum x _ => (sum + x * x)%float) 0%float a = dotProduct a a.
Proof. apply reduceFrom_square. Qed.

Lemma cosineSimilarity_regular (a b : list float) :
  length a = length b -> a <> [] ->
  cosineSimilarity a b = (dotProduct a b / (magnitude a * magnitude b))%float.
Proof.
  intros E Ha. unfold cosineSimilarity.
  assert (Hc : negb (length a =? length b) || (length a =? 0) = false).
  { rewrite (proj2 (Nat.eqb_eq _ _) E). destruct a; [contradiction | reflexivity]. }
  rewrite Hc. cbv zeta.
  rewrite (reduce_dot a b E), !reduce_square. reflexivity.
Qed.

(** C5: [cosineSimilarity a b] is 0 when the lengths differ or a vector is
    empty; otherwise it is the dot product of [a] and [b] divided by the
    product of their magnitudes.  One of the two cases always applies. *)
Theorem C5_cosineSimilarity :
  forall a b : list float,
    ((length a <> length b \/ a = [] \/ b = []) /\
     cosineSimilarity a b = 0%float) \/
    (length a = length b /\ a <> [] /\ b <> [] /\
     cosineSimilarity a b = (dotProduct a b / (magnitude a * magnitude b))%float).
Proof.
  intros a b.
  destruct (Nat.eq_dec (length a) (length b)) as [E | E].
  - destruct a as [| x a].
    + left. split; [auto | apply cosineSimilarity_degenerate; auto].
    + right. split; [exact E |]. split; [discriminate |].
      split; [destruct b; [discriminate E | discriminate] |].
      apply cosineSimilarity_regular; [exact E | discriminate].
  - left. split; [auto | apply cosineSimilarity_degenerate; auto].
Qed.

(** ** The ranker *)

Lemma insertSorted_perm {A} (cmp : A -> A -> float) (x : A) (l : list A) :
  Permutation (insertSorted cmp x l) (x :: l).
Proof.
  induction l as [| y l IH]; simpl; [reflexivity |].
  destruct (cmp x y <? 0)%float; [reflexivity |].
  rewrite IH. apply perm_swap.
Qed.

Lemma sort_from_perm {A} (cmp : A -> A -> float) (l : list A) :
  forall acc,
    Permutation (fold_left (fun sorted x => insertSorted cmp x sorted) l acc) (acc ++ l).
Proof.
  induction l as [| x l IH]; intros acc; simpl.
  - now rewrite app_nil_r.
  - rewrite IH, insertSorted_perm. apply Permutation_middle.
Qed.

Lemma sort_perm {A} (cmp : A -> A -> float) (l : list A) :
  Permutation (sort cmp l) l.
Proof. apply (sort_from_perm cmp l []). Qed.



Lemma nonIncreasing_cons (x : float) (l : list float) :
  nonIncreasing (x :: l) =
  match l with
  | [] => true
  | y :: _ => (y <=? x)%float && nonIncreasing l
  end.
Proof. destruct l; reflexivity. Qed.

Lemma insertSorted_head {A} (cmp : A -> A -> float) (x : A) (l : list A) :
  exists h t,
    insertSorted cmp x l = h :: t /\ (h = x \/ exists t', l = h :: t').
Proof.
  destruct l as [| y l]; simpl; [eauto |].
  destruct (cmp x y <? 0)%float; eauto 6.
Qed.

Lemma insertSorted_desc (x : RankedSource) (l : list RankedSource) :
  is_nan (similarity x) = false ->
  Forall (fun r => is_nan (similarity r) = false) l ->
  nonIncreasing (map similarity l) = true ->
  nonIncreasing (map similarity (insertSorted bySimilarityDesc x l)) = true.
Proof.
  intros Hx. induction l as [| y l IH]; intros Hl Hdesc; [reflexivity |].
  inversion Hl as [| y' l' Hy Hl']; subst.
  simpl insertSorted. unfold bySimilarityDesc at 1.
  rewrite (FloatFacts.sub_ltb_zero _ _ Hx Hy).
  destruct (similarity y <? similarity x)%float eqn:Hlt.
  - simpl map. rewrite nonIncreasing_cons. simpl map in Hdesc.
    rewrite (FloatFacts.ltb_leb _ _ Hlt). exact Hdesc.
  - simpl map. rewrite nonIncreasing_cons.
    simpl map in Hdesc. rewrite nonIncreasing_cons in Hdesc.
    assert (Hrest : nonIncreasing (map similarity l) = true).
    { destruct (map similarity l); [reflexivity |].
      now apply andb_prop in Hdesc. }
    specialize (IH Hl' Hrest).
    destruct (insertSorted_head bySimilarityDesc x l) as (h & t & Hins & Hh).
    rewrite Hins in *. simpl map in IH |- *. rewrite IH, andb_true_r.
    destruct Hh as [-> | (t' & ->)].
    + apply FloatFacts.not_ltb_leb; assumption.
    + simpl map in Hdesc. now apply andb_prop in Hdesc.
Qed.

Lemma insertSorted_clean (x : RankedSource) (l : list RankedSource) :
  is_nan (similarity x) = false ->
  Forall (fun r => is_nan (similarity r) = false) l ->
  Forall (fun r => is_nan (similarity r) = false) (insertSorted bySimilarityDesc x l).
Proof.
  intros Hx Hl. eapply Permutation_Forall.
  - symmetry. apply insertSorted_perm.
  - now constructor.
Qed.

Lemma sort_from_desc (l : list RankedSource) :
  forall acc,
    Forall (fun r => is_nan (similarity r) = false) l ->
    Forall (fun r => is_nan (similarity r) = false) acc ->
    nonIncreasing (map similarity acc) = true ->
    nonIncreasing
      (map similarity
         (fold_left (fun sorted x => insertSorted bySimilarityDesc x sorted) l acc)) = true.
Proof.
  induction l as [| x l IH]; intros acc Hl Hacc Hdesc; simpl; [exact Hdesc |].
  inversion Hl as [| x' l' Hx Hl']; subst.
  apply IH; auto using insertSorted_clean, insertSorted_desc.
Qed.





(** ** The orchestrators *)

Lemma searchWeb_run w q st :
  (searchFails w (trace st) q = true /\
   exists e, searchWeb w q st = Throw e (searched st q)) \/
  (searchFails w (trace st) q = false /\
   exists results, searchWeb w q st = Ret results (searched st q)).
Proof.
  unfold searchFails, searchWeb, bind, call, searched. simpl.
  destruct (search_reply w (trace st) q) as [| status [hits |]]; simpl.
  - left. eauto.
  - destruct (ok status); simpl; [right | left]; eauto.
  - left. destruct (ok status); simpl; eauto.
Qed.

Lemma generateStreamingAnswer_run w p st :
  let st1 := mkState (modelEnsured st) (trace st ++ [EvGenerate p]) in
  (generationOk w (trace st) p = true /\
   exists answer, generateStreamingAnswer w p st = Ret answer st1) \/
  (generationOk w (trace st) p = false /\
   exists e, generateStreamingAnswer w p st = Throw e st1).
Proof.
  unfold generationOk, generateStreamingAnswer, bind, call. simpl.
  destruct (generate_reply w (trace st) p) as [| status chunks readFails]; simpl.
  - right. eauto.
  - destruct (ok status); simpl; [| right; eauto].
    destruct readFails; simpl; [right | left]; eauto.
Qed.

Lemma smart_webSearch_unfold w query st :
  SmartSearch.webSearch w query st =
  match searchWeb w (SmartSearch.searchTerms query) st with
  | Ret results st1 =>
      match SmartSearch.collectSources w REQUIRED_LINKS results [] st1 with
      | Ret sources st2 =>
          if length sources =? 0
          then tryCatch (SmartSearch.generateGeneralAnswer w query ;; ret tt)
                 (fun _ => SmartSearch.generateGeneralAnswer w query ;; ret tt) st2
          else tryCatch (SmartSearch.generateWebAnswer w query sources ;; ret tt)
                 (fun _ => SmartSearch.generateGeneralAnswer w query ;; ret tt) st2
      | Throw _ st2 => (SmartSearch.generateGeneralAnswer w query ;; ret tt) st2
      | Exit st2 => Exit st2
      end
  | Throw _ st1 => (SmartSearch.generateGeneralAnswer w query ;; ret tt) st1
  | Exit st1 => Exit st1
  end.
Proof.
  unfold SmartSearch.webSearch, tryCatch, bind at 1.
  destruct (searchWeb w (SmartSearch.searchTerms query) st) as [results st1 | e st1 | st1];
    try reflexivity.
  unfold bind at 1.
  destruct (SmartSearch.collectSources w REQUIRED_LINKS results [] st1)
    as [sources st2 | e st2 | st2]; try reflexivity.
  destruct (length sources =? 0); reflexivity.
Qed.

Lemma semantic_answerQuery_unfold w query st :
  SemanticSearch.answerQuery w query st =
  match searchWeb w query st with
  | Ret results st1 =>
      match SemanticSearch.collectSources w results st1 with
      | Ret sources st2 =>
          if length sources =? 0 then Ret tt st2
          else match SemanticSearch.generateAnswer w query sources st2 with
               | Ret _ st3 => Ret tt st3
               | Throw _ st3 => Ret tt st3
               | Exit st3 => Exit st3
               end
      | Throw _ st2 => Ret tt st2
      | Exit st2 => Exit st2
      end
  | Throw _ st1 => Ret tt st1
  | Exit st1 => Exit st1
  end.
Proof.
  unfold SemanticSearch.answerQuery, tryCatch, bind at 1.
  destruct (searchWeb w query st) as [results st1 | e st1 | st1]; try reflexivity.
  unfold bind at 1.
  destruct (SemanticSearch.collectSources w results st1)
    as [sources st2 | e st2 | st2]; try reflexivity.
  destruct (length sources =? 0); [reflexivity |].
  unfold bind.
  destruct (SemanticSearch.generateAnswer w query sources st2); reflexivity.
Qed.

Lemma generalAnswer_trace w query st :
  trace (finalState ((SmartSearch.generateGeneralAnswer w query ;; ret tt) st)) =
  trace st ++ [EvGenerate (generalPrompt query)].
Proof.
  unfold bind, SmartSearch.generateGeneralAnswer.
  destruct (generateStreamingAnswer_run w (generalPrompt query) st)
    as [(_ & a & ->) | (_ & e & ->)]; reflexivity.
Qed.

Lemma generalAnswer_ok w query st :
  generationOk w (trace st) (generalPrompt query) = true ->
  (SmartSearch.generateGeneralAnswer w query ;; ret tt) st =
  Ret tt (mkState (modelEnsured st) (trace st ++ [EvGenerate (generalPrompt query)])).
Proof.
  intros Hok. unfold bind, SmartSearch.generateGeneralAnswer.
  destruct (generateStreamingAnswer_run w (generalPrompt query) st)
    as [(_ & a & ->) | (Hbad & _)]; [reflexivity | congruence].
Qed.

(** C6, as the code has it.  When the search request fails, the script
    with the trigger asks the generator for a general answer to the query
    (the request after the search carries the knowledge-only prompt), and
    the turn ends normally when that generation succeeds; the script that
    always searches ends the turn at once, with no request to the
    generator. *)
Theorem C6_search_failure :
  forall (w : World) (query : string) (st : State),
    (searchFails w (trace st) (SmartSearch.searchTerms query) = true ->
     let st1 := searched st (SmartSearch.searchTerms query) in
     SmartSearch.webSearch w query st =
       (SmartSearch.generateGeneralAnswer w query ;; ret tt) st1 /\
     trace (finalState (SmartSearch.webSearch w query st)) =
       trace st ++ [EvSearch (SmartSearch.searchTerms query);
                    EvGenerate (generalPrompt query)] /\
     (generationOk w (trace st1) (generalPrompt query) = true ->
      exists st', SmartSearch.webSearch w query st = Ret tt st')) /\
    (searchFails w (trace st) query = true ->
     SemanticSearch.answerQuery w query st = Ret tt (searched st query)).
Proof.
  intros w query st. split.
  - intros Hfail st1.
    destruct (searchWeb_run w (SmartSearch.searchTerms query) st)
      as [(_ & e & Hrun) | (Hok & _)]; [| congruence].
    assert (Heq : SmartSearch.webSearch w query st =
                  (SmartSearch.generateGeneralAnswer w query ;; ret tt) st1).
    { rewrite smart_webSearch_unfold, Hrun. reflexivity. }
    split; [exact Heq |]. split.
    + rewrite Heq, generalAnswer_trace. unfold st1, searched. simpl.
      now rewrite <- app_assoc.
    + intros Hgen. rewrite Heq, (generalAnswer_ok _ _ _ Hgen). eauto.
  - intros Hfail.
    destruct (searchWeb_run w query st) as [(_ & e & Hrun) | (Hok & _)]; [| congruence].
    rewrite semantic_answerQuery_unfold, Hrun. reflexivity.
Qed.

(** The search engine answers HTTP 500 to "search pasta". *)
Lemma C6_search_failure_witness :
  (SmartSearch.webSearch searchDownWorld "search pasta" initialState =
     (SmartSearch.generateGeneralAnswer searchDownWorld "search pasta" ;; ret tt)
       (searched initialState "pasta") /\
   trace (finalState (SmartSearch.webSearch searchDownWorld "search pasta" initialState)) =
     [EvSearch "pasta"; EvGenerate (generalPrompt "search pasta")] /\
   exists st', SmartSearch.webSearch searchDownWorld "search pasta" initialState = Ret tt st') /\
  SemanticSearch.answerQuery searchDownWorld "search pasta" initialState =
    Ret tt (searched initialState "search pasta").
Proof.
  destruct (C6_search_failure searchDownWorld "search pasta" initialState) as [H1 H2].
  split.
  - destruct (H1 eq_refl) as (Ha & Hb & Hc).
    split; [exact Ha |]. split; [exact Hb | exact (Hc eq_refl)].
  - exact (H2 eq_refl).
Defined.

(** C6 fails on the script that always searches: when the search engine
    answers HTTP 500 the turn ends with the search request as its only
    request; the generator is not called. *)
Lemma C6_no_fallback_counterexample :
  searchFails searchDownWorld [] "best pasta recipe" = true /\
  exists st',
    SemanticSearch.answerQuery searchDownWorld "best pasta recipe" initialState =
      Ret tt st' /\
    trace st' = [EvSearch "best pasta recipe"] /\
    generations (trace st') = [].
Proof.
  split; [reflexivity |]. eexists. split; [vm_compute; reflexivity |].
  split; reflexivity.
Qed.





(** ** The interactive loop *)

Lemma getEmbedding_ready w t st :
  modelReady w st -> exists v st', getEmbedding w t st = Ret v st'.
Proof.
  intros Hready.
  destruct (getEmbedding_cases w t st) as [(v & st' & H & _) | (st' & _ & Hens & Hbad)];
    [eauto |].
  destruct Hready as [H | H]; [congruence | rewrite H in Hbad; discriminate].
Qed.

(** Ranking and generation never end the process once the model is ready. *)
Lemma rankAndGenerate_ready w query sources st :
  modelReady w st ->
  match (queryEmbedding <- getEmbedding w query ;;
         generateStreamingAnswer w (webPrompt query (rankSources queryEmbedding sources))) st
  with
  | Exit _ => False
  | _ => True
  end.
Proof.
  intros Hready. unfold bind.
  destruct (getEmbedding_ready w query st Hready) as (v & st' & ->).
  destruct (generateStreamingAnswer_run w (webPrompt query (rankSources v sources)) st')
    as [(_ & a & ->) | (_ & e & ->)]; exact I.
Qed.

Lemma ready_after {A} w (c : M A) st :
  Emits isPipelineEvent c -> modelReady w st -> modelReady w (finalState (c st)).
Proof. intros Hc. apply monotone_ready. exact (emits_monotone _ _ Hc). Qed.

Lemma semantic_answerQuery_returns w query st :
  modelReady w st ->
  exists st', SemanticSearch.answerQuery w query st = Ret tt st' /\ modelReady w st'.
Proof.
  intros Hready.
  pose proof (ready_after w _ st (pipe_semantic_answerQuery w query) Hready) as Hkeep.
  assert (Hret : exists st', SemanticSearch.answerQuery w query st = Ret tt st').
  { rewrite semantic_answerQuery_unfold.
    destruct (searchWeb_run w query st) as [(_ & e & ->) | (_ & results & ->)]; [eauto |].
    assert (Hready1 : modelReady w (searched st query)) by exact Hready.
    destruct (fetchLinks_ready w (slice0 10 results) [] _ Hready1)
      as (sources & st2 & Hcollect & Hready2).
    unfold SemanticSearch.collectSources. rewrite Hcollect.
    destruct (length sources =? 0); [eauto |].
    pose proof (rankAndGenerate_ready w query sources st2 Hready2) as Hgen.
    unfold SemanticSearch.generateAnswer.
    destruct ((queryEmbedding <- getEmbedding w query ;; _) st2); [eauto | eauto | contradiction]. }
  destruct Hret as (st' & Hrun). rewrite Hrun in Hkeep. eauto.
Qed.

Lemma smart_answerQuery_returns w query st :
  modelReady w st ->
  (forall h q, generationOk w h (generalPrompt q) = true) ->
  exists st', SmartSearch.answerQuery w query st = Ret tt st' /\ modelReady w st'.
Proof.
  intros Hready Hgen.
  pose proof (ready_after w _ st (pipe_smart_answerQuery w query) Hready) as Hkeep.
  assert (Hgeneral : forall s, exists s',
             (SmartSearch.generateGeneralAnswer w query ;; ret tt) s = Ret tt s').
  { intros s. rewrite (generalAnswer_ok w query s (Hgen _ _)). eauto. }
  assert (Hret : exists st', SmartSearch.answerQuery w query st = Ret tt st').
  { unfold SmartSearch.answerQuery.
    destruct (negb (includes "search" (toLowerCase query))); [apply Hgeneral |].
    rewrite smart_webSearch_unfold.
    destruct (searchWeb_run w (SmartSearch.searchTerms query) st)
      as [(_ & e & ->) | (_ & results & ->)]; [apply Hgeneral |].
    assert (Hready1 : modelReady w (searched st (SmartSearch.searchTerms query)))
      by exact Hready.
    destruct (smart_collectSources_ready w REQUIRED_LINKS results [] _ Hready1)
      as (sources & st2 & -> & Hready2).
    unfold tryCatch.
    destruct (length sources =? 0).
    - destruct (Hgeneral st2) as (s' & ->). eauto.
    - pose proof (rankAndGenerate_ready w query sources st2 Hready2) as Hweb.
      unfold bind at 1, SmartSearch.generateWebAnswer.
      destruct ((queryEmbedding <- getEmbedding w query ;; _) st2) as [a s | e s | s];
        [unfold ret; eauto | apply Hgeneral | contradiction]. }
  destruct Hret as (st' & Hrun). rewrite Hrun in Hkeep. eauto.
Qed.

Lemma prompts_app t1 t2 : prompts (t1 ++ t2) = prompts t1 + prompts t2.
Proof. unfold prompts. now rewrite filter_app, length_app. Qed.

Lemma prompts_pipeline t : forallb isPipelineEvent t = true -> prompts t = 0.
Proof.
  unfold prompts. induction t as [| ev t IH]; simpl; [reflexivity |].
  intros H. apply andb_prop in H as [Hev Ht].
  destruct ev; try discriminate Hev; auto.
Qed.

(** A loop of the shape of [main] reads one line after the other until a
    line ends the session, provided every turn returns. *)
Lemma loop_returns (w : World) (body : string -> M unit)
    (loop : list (option string) -> M unit) :
  (forall st, loop [] st = Ret tt (prompted st)) ->
  (forall line rest st,
      loop (line :: rest) st =
      (if sessionEnds line then ret tt
       else match line with
            | Some query => body query ;; loop rest
            | None => ret tt
            end) (prompted st)) ->
  (forall query, Emits isPipelineEvent (body query)) ->
  (forall query st,
      modelReady w st -> exists st', body query st = Ret tt st' /\ modelReady w st') ->
  forall lines st,
    modelReady w st ->
    exists st' later,
      loop lines st = Ret tt st' /\
      trace st' = trace st ++ later /\
      prompts later = S (length (queriesAsked lines)).
Proof.
  intros Hnil Hcons Hemits Hbody lines.
  induction lines as [| line rest IH]; intros st Hready.
  - rewrite Hnil. exists (prompted st), [EvPrompt]. auto.
  - rewrite Hcons. simpl queriesAsked.
    destruct (sessionEnds line) eqn:Hend.
    + exists (prompted st), [EvPrompt]. auto.
    + destruct line as [query |]; [| discriminate Hend].
      assert (Hready0 : modelReady w (prompted st)) by exact Hready.
      destruct (Hbody query _ Hready0) as (st1 & Hrun & Hready1).
      destruct (Hemits query (prompted st)) as [(d & Hd & Hpipe) _].
      rewrite Hrun in Hd. simpl in Hd.
      destruct (IH st1 Hready1) as (st' & later & Hloop & Ht & Hp).
      exists st', (EvPrompt :: d ++ later).
      split; [unfold bind; now rewrite Hrun |].
      split.
      * rewrite Ht, Hd. simpl. now rewrite <- !app_assoc.
      * change (EvPrompt :: d ++ later) with ([EvPrompt] ++ d ++ later).
        rewrite !prompts_app, (prompts_pipeline _ Hpipe), Hp. reflexivity.
Qed.

(** Once the embedding model is ready, every turn of the script that
    always searches returns, whatever the search, the page fetches, the
    embedding requests and the generation do: the loop reads one line after
    the other up to the line that ends the session.  The script with the
    trigger does so when its general-answer generation succeeds. *)
Lemma loop_goes_on :
  forall (w : World) (lines : list (option string)) (st : State),
    modelReady w st ->
    (exists st' later,
        SemanticSearch.main w lines st = Ret tt st' /\
        trace st' = trace st ++ later /\
        prompts later = S (length (queriesAsked lines))) /\
    ((forall h q, generationOk w h (generalPrompt q) = true) ->
     exists st' later,
       SmartSearch.main w lines st = Ret tt st' /\
       trace st' = trace st ++ later /\
       prompts later = S (length (queriesAsked lines))).
Proof.
  intros w lines st Hready. split.
  - apply (loop_returns w (SemanticSearch.answerQuery w) (SemanticSearch.main w));
      auto using semantic_main_cons, pipe_semantic_answerQuery,
        semantic_answerQuery_returns.
  - intros Hgen.
    apply (loop_returns w (SmartSearch.answerQuery w) (SmartSearch.main w));
      auto using smart_main_cons, pipe_smart_answerQuery.
    intros query s Hs. now apply smart_answerQuery_returns.
Qed.

(** The script that always searches goes on after a failed generation:
    the generator answers HTTP 500 to the first query, and the second
    line is read all the same. *)
Example semantic_loop_survives_generation_failure :
  exists st',
    SemanticSearch.main generatorDownWorld [Some "pasta"; Some "exit"] initialState =
      Ret tt st' /\
    prompts (trace st') = 2.
Proof. eexists. split; [vm_compute; reflexivity | reflexivity]. Qed.

(** The one failure that ends a session by design: when the availability
    check of the embedding model fails, the first page to embed ends the
    process, and the second query is never read. *)
Example fatal_model_check_ends_session :
  exists st',
    SemanticSearch.main (noRegistryWorld threeUrls) [Some "pasta"; Some "pizza"]
      initialState = Exit st' /\
    trace st' = [EvPrompt; EvSearch "pasta"; EvPageGet "http://a.example"; EvTags] /\
    prompts (trace st') = 1.
Proof. eexists. split; [vm_compute; reflexivity |]. split; reflexivity. Qed.

(** A failed generation of the general answer leaves the turn it is in. *)
Lemma generalAnswer_fails w query st :
  generationOk w (trace st) (generalPrompt query) = false ->
  exists e,
    (SmartSearch.generateGeneralAnswer w query ;; ret tt) st =
    Throw e (mkState (modelEnsured st) (trace st ++ [EvGenerate (generalPrompt query)])).
Proof.
  intros Hgen. unfold bind, SmartSearch.generateGeneralAnswer.
  destruct (generateStreamingAnswer_run w (generalPrompt query) st)
    as [(Hok & _) | (_ & e & ->)]; [congruence | eauto].
Qed.

(** C8 does not hold of the script with the trigger.  Its general answer
    is generated outside any [try], in general mode and in the [catch]
    block of the web search: when that generation fails (connection
    failure, non-2xx answer, broken stream), the exception leaves [main]
    with the generation request as the last thing done, and no further
    line is read, whatever lines were to follow. *)
Theorem C8_generation_failure_ends_session :
  forall (w : World) (query : string) (rest : list (option string)) (st : State),
    sessionEnds (Some query) = false ->
    (includes "search" (toLowerCase query) = false ->
     generationOk w (trace (prompted st)) (generalPrompt query) = false ->
     exists e st',
       SmartSearch.main w (Some query :: rest) st = Throw e st' /\
       trace st' = trace st ++ [EvPrompt; EvGenerate (generalPrompt query)]) /\
    (includes "search" (toLowerCase query) = true ->
     searchFails w (trace (prompted st)) (SmartSearch.searchTerms query) = true ->
     generationOk w
       (trace (searched (prompted st) (SmartSearch.searchTerms query)))
       (generalPrompt query) = false ->
     exists e st',
       SmartSearch.main w (Some query :: rest) st = Throw e st' /\
       trace st' = trace st ++ [EvPrompt; EvSearch (SmartSearch.searchTerms query);
                                EvGenerate (generalPrompt query)]).
Proof.
  intros w query rest st Hgoes. split.
  - intros Hmode Hgen. rewrite smart_main_cons, Hgoes.
    destruct (generalAnswer_fails w query (prompted st) Hgen) as (e & Hrun).
    assert (Hturn : SmartSearch.answerQuery w query (prompted st) =
                    Throw e (mkState (modelEnsured (prompted st))
                               (trace (prompted st) ++ [EvGenerate (generalPrompt query)]))).
    { unfold SmartSearch.answerQuery. rewrite Hmode. exact Hrun. }
    exists e. eexists. split.
    + unfold bind. rewrite Hturn. reflexivity.
    + simpl. now rewrite <- app_assoc.
  - intros Hmode Hsearch Hgen. rewrite smart_main_cons, Hgoes.
    destruct (searchWeb_run w (SmartSearch.searchTerms query) (prompted st))
      as [(_ & e0 & Hrun0) | (Hok & _)]; [| congruence].
    destruct (generalAnswer_fails w query _ Hgen) as (e & Hrun).
    set (st1 := searched (prompted st) (SmartSearch.searchTerms query)) in *.
    assert (Hturn : SmartSearch.answerQuery w query (prompted st) =
                    Throw e (mkState (modelEnsured st1)
                               (trace st1 ++ [EvGenerate (generalPrompt query)]))).
    { unfold SmartSearch.answerQuery. rewrite Hmode.
      change (SmartSearch.webSearch w query (prompted st) =
              Throw e (mkState (modelEnsured st1)
                         (trace st1 ++ [EvGenerate (generalPrompt query)]))).
      rewrite smart_webSearch_unfold, Hrun0. exact Hrun. }
    exists e. eexists. split.
    + unfold bind. rewrite Hturn. reflexivity.
    + simpl. now rewrite <- !app_assoc.
Qed.

(** The generator answers HTTP 500 to the general query "capital of
    France": the session ends there and "exit" is never read.  The same
    happens to "search pasta" when the search engine is down as well. *)
Lemma C8_generation_failure_ends_session_witness :
  (exists e st',
      SmartSearch.main generatorDownWorld [Some "capital of France"; Some "exit"]
        initialState = Throw e st' /\
      trace st' = trace initialState ++
                  [EvPrompt; EvGenerate (generalPrompt "capital of France")]) /\
  (exists e st',
      SmartSearch.main allDownWorld [Some "search pasta"; Some "exit"]
        initialState = Throw e st' /\
      trace st' = trace initialState ++
                  [EvPrompt; EvSearch (SmartSearch.searchTerms "search pasta");
                   EvGenerate (generalPrompt "search pasta")]).
Proof.
  split.
  - exact (proj1 (C8_generation_failure_ends_session generatorDownWorld
                    "capital of France" [Some "exit"] initialState eq_refl)
             eq_refl eq_refl).
  - exact (proj2 (C8_generation_failure_ends_session allDownWorld
                    "search pasta" [Some "exit"] initialState eq_refl)
             eq_refl eq_refl eq_refl).
Defined.

(** In the script with the trigger the general answer is generated
    outside any [try]: when the generation endpoint answers HTTP 500 to a
    general query, the exception leaves [main]. *)
Lemma smart_general_failure_escapes :
  exists st',
    SmartSearch.main generatorDownWorld [Some "capital of France"; Some "exit"]
      initialState = Throw (GenerationError 500) st' /\
    prompts (trace st') = 1.
Proof. eexists. split; [vm_compute; reflexivity | reflexivity]. Qed.

(** * Further properties of the code *)

(** ** Counting requests *)

Lemma countEvents_app f t1 t2 :
  countEvents f (t1 ++ t2) = countEvents f t1 + countEvents f t2.
Proof. unfold countEvents. now rewrite filter_app, length_app. Qed.

Lemma countEvents_none f g t :
  (forall ev, g ev = true -> f ev = false) ->
  forallb g t = true -> countEvents f t = 0.
Proof.
  intros Hfg. unfold countEvents. induction t as [| ev t IH]; simpl; [reflexivity |].
  intros H. apply andb_prop in H as [Hev Ht]. now rewrite (Hfg ev Hev), IH.
Qed.

Lemma countEvents_snoc f t ev :
  countEvents f (t ++ [ev]) = countEvents f t + (if f ev then 1 else 0).
Proof.
  rewrite countEvents_app. unfold countEvents at 2. simpl. now destruct (f ev).
Qed.

(** ** The embedding client, continued *)

Lemma ensure_outcome w st :
  exists evs,
    (evs = [EvTags] \/ evs = [EvTags; EvPull]) /\
    (ensureEmbeddingModelRunning w st = Ret tt (mkState true (trace st ++ evs)) \/
     ensureEmbeddingModelRunning w st = Exit (mkState (modelEnsured st) (trace st ++ evs))).
Proof.
  unfold ensureEmbeddingModelRunning, tryCatch, bind, call. simpl.
  destruct (tags_reply w (trace st)) as [| status [names |]]; simpl.
  - exists [EvTags]. auto.
  - destruct (ok status); simpl; [| exists [EvTags]; auto].
    destruct (existsb (includes EMBEDDING_MODEL) names); simpl.
    + exists [EvTags]. auto.
    + exists [EvTags; EvPull]. rewrite <- app_assoc. simpl.
      destruct (pull_ok w (trace st ++ [EvTags])); simpl; auto.
  - exists [EvTags]. destruct (ok status); simpl; auto.
Qed.

Lemma requestEmbedding_value w t st :
  requestEmbedding w t st =
  Ret (match embed_reply w (trace st) t with
       | Reply status (Some (Some e)) => if ok status then e else []
       | _ => []
       end)
      (mkState (modelEnsured st) (trace st ++ [EvEmbed t])).
Proof.
  unfold requestEmbedding, tryCatch, bind, call. simpl.
  destruct (embed_reply w (trace st) t) as [| status [[e |] |]]; simpl;
    try reflexivity; destruct (ok status); reflexivity.
Qed.

Lemma neverThrows_getEmbedding w t : NeverThrows (getEmbedding w t).
Proof.
  intros st e st' H.
  destruct (getEmbedding_cases w t st) as [(v & s & Hrun & _) | (s & Hrun & _)];
    rewrite Hrun in H; discriminate H.
Qed.

(** X1: [getEmbedding] never throws.  Once the model is ensured a call
    is one request to the embedding endpoint and returns normally: the
    vector of the answer when the answer is 2xx JSON with an [embedding]
    field, the empty vector in every other case (connection failure,
    non-2xx status, unreadable body, missing field). *)
Theorem X1_getEmbedding_failure_is_empty :
  forall (w : World) (t : string) (st : State),
    modelEnsured st = true ->
    NeverThrows (getEmbedding w t) /\
    getEmbedding w t st =
      Ret (match embed_reply w (trace st) t with
           | Reply status (Some (Some e)) => if ok status then e else []
           | _ => []
           end)
          (mkState true (trace st ++ [EvEmbed t])).
Proof.
  intros w t st Hens. split; [apply neverThrows_getEmbedding |].
  rewrite getEmbedding_unfold, Hens, requestEmbedding_value, Hens. reflexivity.
Qed.

(** The embedding endpoint answers HTTP 500: the vector is empty. *)
Lemma X1_getEmbedding_failure_is_empty_witness :
  NeverThrows (getEmbedding embedDownWorld "some text") /\
  getEmbedding embedDownWorld "some text" ensuredState =
    Ret [] (mkState true [EvTags; EvEmbed "some text"]).
Proof. exact (X1_getEmbedding_failure_is_empty embedDownWorld "some text" ensuredState eq_refl). Defined.

(** ** The availability check is made once *)

Lemma keeps_ret {A} (a : A) : KeepsCheck (ret a).
Proof. intros st H. exact H. Qed.

Lemma keeps_throw {A} (e : Err) : KeepsCheck (@throw A e).
Proof. intros st H. exact H. Qed.

Lemma keeps_call {R} (ev : Event) (oracle : list Event -> R) :
  isTagsEvent ev = false -> KeepsCheck (call ev oracle).
Proof.
  intros Hev st H. unfold CheckOut, CheckInv, call in *. simpl.
  rewrite countEvents_snoc, Hev, Nat.add_0_r. exact H.
Qed.

Lemma keeps_bind {A B} (c : M A) (k : A -> M B) :
  KeepsCheck c -> (forall a, KeepsCheck (k a)) -> KeepsCheck (bind c k).
Proof.
  intros Hc Hk st H. unfold bind. specialize (Hc st H).
  destruct (c st) as [a st' | e st' | st']; simpl in *; auto.
  now apply Hk.
Qed.

Lemma keeps_tryCatch {A} (c : M A) (h : Err -> M A) :
  KeepsCheck c -> (forall e, KeepsCheck (h e)) -> KeepsCheck (tryCatch c h).
Proof.
  intros Hc Hh st H. unfold tryCatch. specialize (Hc st H).
  destruct (c st) as [a st' | e st' | st']; simpl in *; auto.
  now apply Hh.
Qed.

Lemma keeps_requestEmbedding w t : KeepsCheck (requestEmbedding w t).
Proof.
  intros st H. rewrite requestEmbedding_value. unfold CheckOut, CheckInv in *. simpl.
  rewrite countEvents_snoc. simpl. now rewrite Nat.add_0_r.
Qed.

Lemma keeps_getEmbedding w t : KeepsCheck (getEmbedding w t).
Proof.
  intros st H. rewrite getEmbedding_unfold.
  destruct (modelEnsured st) eqn:Hens; [now apply keeps_requestEmbedding |].
  unfold CheckInv in H. rewrite Hens in H.
  destruct (ensure_outcome w st) as (evs & Hevs & [Hrun | Hrun]); rewrite Hrun.
  - apply keeps_requestEmbedding. unfold CheckInv. simpl.
    rewrite countEvents_app, H. destruct Hevs as [-> | ->]; unfold countEvents; simpl; lia.
  - unfold CheckOut, FailedCheck. simpl. rewrite Hens, countEvents_app, H.
    split; [reflexivity |]. split; [destruct Hevs as [-> | ->]; reflexivity |].
    exists (trace st). destruct Hevs as [-> | ->]; auto.
Qed.

Create HintDb keeps.
#[local] Hint Resolve keeps_ret keeps_throw keeps_getEmbedding : keeps.

(** Splits a goal [KeepsCheck c] along the syntax of [c]. *)
Ltac keeps :=
  repeat first
    [ solve [ auto with keeps ]
    | apply keeps_call; reflexivity
    | apply keeps_bind; [ | intros ]
    | apply keeps_tryCatch; [ | intros ]
    | match goal with
      | |- KeepsCheck (match ?x with _ => _ end) => destruct x
      | |- KeepsCheck (if ?b then _ else _) => destruct b
      end ].

Lemma keeps_searchWeb w q : KeepsCheck (searchWeb w q).
Proof. unfold searchWeb. keeps. Qed.

Lemma keeps_fetchPageContent w u : KeepsCheck (fetchPageContent w u).
Proof. unfold fetchPageContent. keeps. Qed.

Lemma keeps_generateStreamingAnswer w p : KeepsCheck (generateStreamingAnswer w p).
Proof. unfold generateStreamingAnswer. keeps. Qed.
#[local] Hint Resolve keeps_searchWeb keeps_fetchPageContent
  keeps_generateStreamingAnswer : keeps.

Lemma keeps_smart_collectSources w required pending :
  forall sources, KeepsCheck (SmartSearch.collectSources w required pending sources).
Proof.
  induction pending as [| r pending' IH]; intros sources; simpl; keeps.
  all: apply IH.
Qed.

Lemma keeps_fetchLinks w links :
  forall sources, KeepsCheck (SemanticSearch.fetchLinks w links sources).
Proof.
  induction links as [| l rest IH]; intros sources; simpl; keeps.
  all: apply IH.
Qed.
#[local] Hint Resolve keeps_smart_collectSources keeps_fetchLinks : keeps.

Lemma keeps_semantic_collectSources w results :
  KeepsCheck (SemanticSearch.collectSources w results).
Proof. apply keeps_fetchLinks. Qed.

Lemma keeps_generateWebAnswer w q sources :
  KeepsCheck (SmartSearch.generateWebAnswer w q sources).
Proof. unfold SmartSearch.generateWebAnswer. keeps. Qed.

Lemma keeps_generateGeneralAnswer w q :
  KeepsCheck (SmartSearch.generateGeneralAnswer w q).
Proof. unfold SmartSearch.generateGeneralAnswer. keeps. Qed.

Lemma keeps_generateAnswer w q sources :
  KeepsCheck (SemanticSearch.generateAnswer w q sources).
Proof. unfold SemanticSearch.generateAnswer. keeps. Qed.
#[local] Hint Resolve keeps_semantic_collectSources keeps_generateWebAnswer
  keeps_generateGeneralAnswer keeps_generateAnswer : keeps.

Lemma keeps_smart_answerQuery w q : KeepsCheck (SmartSearch.answerQuery w q).
Proof. unfold SmartSearch.answerQuery, SmartSearch.webSearch. keeps. Qed.

Lemma keeps_semantic_answerQuery w q : KeepsCheck (SemanticSearch.answerQuery w q).
Proof. unfold SemanticSearch.answerQuery. keeps. Qed.
#[local] Hint Resolve keeps_smart_answerQuery keeps_semantic_answerQuery : keeps.

Lemma keeps_smart_main w lines : KeepsCheck (SmartSearch.main w lines).
Proof. induction lines as [| line rest IH]; simpl; keeps. Qed.

Lemma keeps_semantic_main w lines : KeepsCheck (SemanticSearch.main w lines).
Proof. induction lines as [| line rest IH]; simpl; keeps. Qed.

Lemma checkOut_at_most_once {A} (o : Outcome A) :
  CheckOut o -> countEvents isTagsEvent (trace (finalState o)) <= 1.
Proof.
  destruct o as [a s | e s | s]; simpl; unfold CheckInv, FailedCheck.
  - destruct (modelEnsured s); lia.
  - destruct (modelEnsured s); lia.
  - intros (_ & H & _). lia.
Qed.

(** X2: in a whole session of either script, whatever the services
    answer, the model registry is asked at most once. *)
Theorem X2_registry_asked_at_most_once :
  forall (w : World) (lines : list (option string)),
    countEvents isTagsEvent
      (trace (finalState (SmartSearch.main w lines initialState))) <= 1 /\
    countEvents isTagsEvent
      (trace (finalState (SemanticSearch.main w lines initialState))) <= 1.
Proof.
  intros w lines. split; apply checkOut_at_most_once.
  - apply keeps_smart_main. reflexivity.
  - apply keeps_semantic_main. reflexivity.
Qed.



(** ** The page fetcher, continued *)

Lemma fetchPageContent_result w u st content st' :
  fetchPageContent w u st = Ret content st' ->
  content = emptySource u \/
  exists status html v,
    page_reply w (trace st) u = PageResp status (Some html) /\
    cheerio_fails w html = false /\
    getEmbedding w (processedText w html)
      (mkState (modelEnsured st) (trace st ++ [EvPageGet u])) = Ret v st' /\
    content = mkSource u (processedText w html) v.
Proof.
  rewrite fetchPageContent_unfold. cbv zeta.
  destruct (page_reply w (trace st) u) as [| | status [html |]];
    try (intros H; injection H as <- <-; now left).
  destruct (cheerio_fails w html) eqn:Hparse;
    [intros H; injection H as <- <-; now left |].
  destruct (getEmbedding w (processedText w html) _) as [v s | e s | s] eqn:Hemb;
    intros H; [| now apply neverThrows_getEmbedding in Hemb | discriminate H].
  injection H as <- <-. right. exists status, html, v. auto.
Qed.

(** X4: the fetcher never throws, and a page that cannot be had yields
    the empty Source: after a timeout, a connection failure, an unreadable
    body or an error of the HTML library, the result is the Source with
    the requested URL, empty text and empty embedding, the page request is
    the only request made, and the [modelEnsured] flag is untouched. *)
Theorem X4_fetch_failure_is_empty_source :
  forall (w : World) (u : string) (st : State),
    match page_reply w (trace st) u with
    | PageNetFailure | PageTimeout | PageResp _ None => True
    | PageResp _ (Some html) => cheerio_fails w html = true
    end ->
    NeverThrows (fetchPageContent w u) /\
    fetchPageContent w u st =
      Ret (mkSource u "" []) (mkState (modelEnsured st) (trace st ++ [EvPageGet u])).
Proof.
  intros w u st Hfail. split.
  - intros s e s'. apply fetchPageContent_never_throws.
  - now apply fetchPageContent_failure.
Qed.

(** The host of "http://down.example" does not answer in time. *)
Lemma X4_fetch_failure_is_empty_source_witness :
  NeverThrows (fetchPageContent (healthyWorld []) "http://down.example") /\
  fetchPageContent (healthyWorld []) "http://down.example" initialState =
    Ret (mkSource "http://down.example" "" [])
        (mkState false [EvPageGet "http://down.example"]).
Proof.
  exact (X4_fetch_failure_is_empty_source (healthyWorld []) "http://down.example"
           initialState I).
Defined.

Lemma wellSpaced_collapseFrom s :
  forall b, wellSpaced b (collapseFrom b s) = true.
Proof.
  induction s as [| c s IH]; intros b; simpl; [reflexivity |].
  destruct (isSpace c) eqn:Hc.
  - destruct b; [apply IH |].
    simpl. now rewrite IH.
  - simpl. rewrite Hc. apply IH.
Qed.

Lemma wellSpaced_substring n :
  forall b s, wellSpaced b s = true -> wellSpaced b (substring 0 n s) = true.
Proof.
  induction n as [| n IH]; intros b s H.
  - now destruct s.
  - destruct s as [| c s]; [reflexivity |].
    simpl in *. destruct (isSpace c).
    + apply andb_prop in H as [H1 H2]. rewrite H1. simpl. now apply IH.
    + now apply IH.
Qed.

Lemma length_substring n : forall s, String.length (substring 0 n s) <= n.
Proof.
  induction n as [| n IH]; intros s.
  - now destruct s.
  - destruct s as [| c s]; simpl; [lia |]. specialize (IH s). lia.
Qed.

Lemma collapseFrom_fixed s :
  forall b, wellSpaced b s = true -> collapseFrom b s = s.
Proof.
  induction s as [| c s IH]; intros b H; simpl in *; [reflexivity |].
  destruct (isSpace c).
  - apply andb_prop in H as [H1 H2]. apply andb_prop in H1 as [Hc Hb].
    apply Ascii.eqb_eq in Hc. subst c.
    destruct b; [discriminate Hb |]. now rewrite (IH true H2).
  - now rewrite (IH false H).
Qed.

Lemma substring_all n : forall s, String.length s <= n -> substring 0 n s = s.
Proof.
  induction n as [| n IH]; intros s H.
  - destruct s; [reflexivity | simpl in H; lia].
  - destruct s as [| c s]; [reflexivity |].
    simpl in *. rewrite IH; [reflexivity | lia].
Qed.

Lemma processedText_normal w html :
  String.length (processedText w html) <= MAX_CONTENT_LENGTH /\
  wellSpaced false (processedText w html) = true.
Proof.
  unfold processedText. split.
  - apply length_substring.
  - apply wellSpaced_substring. apply wellSpaced_collapseFrom.
Qed.

(** X5: the text of every Source the fetcher returns is normalised: it
    has at most [MAX_CONTENT_LENGTH] (3000) characters, its only white
    space is the space character, and it has no two spaces in a row. *)
Theorem X5_fetched_text_is_normalised :
  forall (w : World) (u : string) (st : State) (content : Source) (st' : State),
    fetchPageContent w u st = Ret content st' ->
    String.length (text content) <= MAX_CONTENT_LENGTH /\
    wellSpaced false (text content) = true.
Proof.
  intros w u st content st' Hrun.
  destruct (fetchPageContent_result w u st content st' Hrun)
    as [-> | (status & html & v & _ & _ & _ & ->)].
  - split; [simpl; lia | reflexivity].
  - apply processedText_normal.
Qed.

(** The long sample page. *)
Lemma X5_fetched_text_is_normalised_witness :
  String.length longText <= MAX_CONTENT_LENGTH /\
  wellSpaced false longText = true.
Proof.
  apply (X5_fetched_text_is_normalised (healthyWorld []) "http://a.example"
           initialState (mkSource "http://a.example" longText [1%float; 0%float])
           (mkState true [EvPageGet "http://a.example"; EvTags; EvEmbed longText])).
  vm_compute. reflexivity.
Defined.

(** X6: normalising is idempotent on what the fetcher returns: collapsing
    the white space of a Source's text and cutting it at
    [MAX_CONTENT_LENGTH] again gives the same text. *)
Theorem X6_normalising_again_changes_nothing :
  forall (w : World) (u : string) (st : State) (content : Source) (st' : State),
    fetchPageContent w u st = Ret content st' ->
    substring 0 MAX_CONTENT_LENGTH (collapseWhitespace (text content)) = text content.
Proof.
  intros w u st content st' Hrun.
  assert (H : String.length (text content) <= MAX_CONTENT_LENGTH /\
              wellSpaced false (text content) = true).
  { destruct (fetchPageContent_result w u st content st' Hrun)
      as [-> | (status & html & v & _ & _ & _ & ->)].
    - split; [simpl; lia | reflexivity].
    - apply processedText_normal. }
  destruct H as [Hlen Hws].
  unfold collapseWhitespace. rewrite (collapseFrom_fixed _ _ Hws).
  now apply substring_all.
Qed.

Lemma X6_normalising_again_changes_nothing_witness :
  substring 0 MAX_CONTENT_LENGTH (collapseWhitespace "too short") = "too short".
Proof.
  apply (X6_normalising_again_changes_nothing (healthyWorld []) "http://short.example"
           initialState (mkSource "http://short.example" "too short" [1%float; 0%float])
           (mkState true [EvPageGet "http://short.example"; EvTags; EvEmbed "too short"])).
  vm_compute. reflexivity.
Defined.

Lemma embeds_app t1 t2 : embeds (t1 ++ t2) = embeds t1 ++ embeds t2.
Proof. apply flat_map_app. Qed.

(** An embedding that is returned is the vector the endpoint answered to
    the one embedding request made, after the availability check if there
    was one. *)
Lemma getEmbedding_answer w t st v st' :
  getEmbedding w t st = Ret v st' ->
  exists checks,
    trace st' = trace st ++ checks ++ [EvEmbed t] /\
    pageGets checks = [] /\
    embeds checks = [] /\
    v = embeddingAnswered w (trace st ++ checks) t.
Proof.
  rewrite getEmbedding_unfold. unfold embeddingAnswered.
  destruct (modelEnsured st).
  - rewrite requestEmbedding_value. intros H. injection H as <- <-.
    exists []. simpl. rewrite app_nil_r. auto.
  - destruct (ensure_outcome w st) as (evs & Hevs & [Hrun | Hrun]); rewrite Hrun;
      [| discriminate].
    rewrite requestEmbedding_value. intros H. injection H as <- <-.
    exists evs. simpl. rewrite <- app_assoc.
    destruct Hevs as [-> | ->]; auto.
Qed.

(** X7: a Source the fetcher returns carries the requested URL, and its
    embedding is the embedding of its text: the fetcher asks for the page
    once and for nothing else on the web, and either the Source is the
    empty one and nothing was embedded, or exactly one text was sent to the
    embedding endpoint, last of all, which is the normalised text stored in
    the Source, and the embedding stored in the Source is the vector the
    endpoint answered to that request (no vector when the request
    failed). *)
Theorem X7_source_embeds_its_own_text :
  forall (w : World) (u : string) (st : State) (content : Source) (st' : State),
    fetchPageContent w u st = Ret content st' ->
    url content = u /\
    exists later,
      trace st' = trace st ++ EvPageGet u :: later /\
      pageGets later = [] /\
      ((content = emptySource u /\ embeds later = []) \/
       (embeds later = [text content] /\
        exists checks,
          later = checks ++ [EvEmbed (text content)] /\
          embedding content =
            embeddingAnswered w (trace st ++ EvPageGet u :: checks) (text content))).
Proof.
  intros w u st content st' Hrun.
  assert (Hrun' := Hrun). rewrite fetchPageContent_unfold in Hrun'. cbv zeta in Hrun'.
  assert (Hempty : forall s, Ret (emptySource u) s = Ret content st' ->
            s = mkState (modelEnsured st) (trace st ++ [EvPageGet u]) ->
            url content = u /\
            exists later,
              trace st' = trace st ++ EvPageGet u :: later /\
              pageGets later = [] /\
              ((content = emptySource u /\ embeds later = []) \/
               (embeds later = [text content] /\
                exists checks,
                  later = checks ++ [EvEmbed (text content)] /\
                  embedding content =
                    embeddingAnswered w (trace st ++ EvPageGet u :: checks)
                      (text content)))).
  { intros s H ->. injection H as <- <-. split; [reflexivity |].
    exists []. simpl. auto. }
  destruct (page_reply w (trace st) u) as [| | status [html |]];
    try (eapply Hempty; [exact Hrun' | reflexivity]).
  destruct (cheerio_fails w html); [eapply Hempty; [exact Hrun' | reflexivity] |].
  destruct (getEmbedding w (processedText w html) _) as [v s | e s | s] eqn:Hemb;
    [| now apply neverThrows_getEmbedding in Hemb | discriminate Hrun'].
  injection Hrun' as <- <-.
  destruct (getEmbedding_answer _ _ _ _ _ Hemb) as (checks & Ht & Hp & He & Hv).
  split; [reflexivity |]. exists (checks ++ [EvEmbed (processedText w html)]).
  simpl in Ht, Hv. rewrite <- app_assoc in Hv. simpl in Hv.
  split; [rewrite Ht, <- app_assoc; reflexivity |].
  split; [rewrite pageGets_app, Hp; reflexivity |].
  right. simpl. split; [rewrite embeds_app, He; reflexivity |].
  exists checks. split; [reflexivity | exact Hv].
Qed.

(** The first fetch of a session: the registry is asked, then the text of
    the page is embedded, and the vector answered is stored. *)
Lemma X7_source_embeds_its_own_text_witness :
  url (mkSource "http://a.example" longText [1%float; 0%float]) = "http://a.example" /\
  exists later,
    [EvPageGet "http://a.example"; EvTags; EvEmbed longText] =
      trace initialState ++ EvPageGet "http://a.example" :: later /\
    pageGets later = [] /\
    ((mkSource "http://a.example" longText [1%float; 0%float] =
        emptySource "http://a.example" /\ embeds later = []) \/
     (embeds later = [text (mkSource "http://a.example" longText [1%float; 0%float])] /\
      exists checks,
        later =
          checks ++ [EvEmbed (text (mkSource "http://a.example" longText
                                      [1%float; 0%float]))] /\
        embedding (mkSource "http://a.example" longText [1%float; 0%float]) =
          embeddingAnswered (healthyWorld [])
            (trace initialState ++ EvPageGet "http://a.example" :: checks)
            (text (mkSource "http://a.example" longText [1%float; 0%float])))).
Proof.
  apply (X7_source_embeds_its_own_text (healthyWorld []) "http://a.example"
           initialState (mkSource "http://a.example" longText [1%float; 0%float])
           (mkState true [EvPageGet "http://a.example"; EvTags; EvEmbed longText])).
  vm_compute. reflexivity.
Defined.

(** ** Binary64 arithmetic, continued *)

Module FloatOrder.
Local Open Scope Z_scope.

Lemma SFmul_comm (X Y : spec_float) : SF64mul X Y = SF64mul Y X.
Proof.
  unfold SF64mul.
  destruct X as [sx | sx | | sx mx ex], Y as [sy | sy | | sy my ey]; simpl;
    try reflexivity; try (now rewrite xorb_comm).
  now rewrite xorb_comm, Pos.mul_comm, Z.add_comm.
Qed.

(** The product of two floats does not depend on their order. *)
Lemma mul_comm (x y : float) : (x * y)%float = (y * x)%float.
Proof. apply Prim2SF_inj. rewrite !mul_spec. apply SFmul_comm. Qed.

Lemma SFleb_trans (X Y Z : spec_float) :
  SFleb X Y = true -> SFleb Y Z = true -> SFleb X Z = true.
Proof.
  unfold SFleb, SFcompare.
  destruct X as [sx | sx | | sx mx ex], Y as [sy | sy | | sy my ey],
           Z as [sz | sz | | sz mz ez];
    repeat match goal with s : bool |- _ => destruct s end;
    try discriminate; try reflexivity;
    change (PosDef.Pos.compare_cont Eq) with Pos.compare;
    repeat match goal with
           | |- context [Z.compare ?a ?b] => destruct (Z.compare_spec a b)
           end;
    try discriminate; try reflexivity; try lia;
    repeat match goal with
           | |- context [Pos.compare ?a ?b] => destruct (Pos.compare_spec a b)
           end;
    simpl; try discriminate; try reflexivity; lia.
Qed.

(** The order of floats is transitive. *)
Lemma leb_trans (x y z : float) :
  (x <=? y)%float = true -> (y <=? z)%float = true -> (x <=? z)%float = true.
Proof. rewrite !leb_spec. apply SFleb_trans. Qed.

End FloatOrder.

(** ** Cosine similarity, continued *)

Lemma dotFrom_comm (a : list float) :
  forall (b : list float) (acc : float), dotFrom acc a b = dotFrom acc b a.
Proof.
  induction a as [| x a IH]; intros [| y b] acc; simpl; try reflexivity.
  rewrite (FloatOrder.mul_comm x y). apply IH.
Qed.

(** X8: the cosine similarity is symmetric, as computed in binary64:
    [cosineSimilarity a b] and [cosineSimilarity b a] are the same
    number for all vectors, NaN included. *)
Theorem X8_cosineSimilarity_symmetric :
  forall a b : list float, cosineSimilarity a b = cosineSimilarity b a.
Proof.
  intros a b.
  destruct (Nat.eq_dec (length a) (length b)) as [E | E].
  - destruct a as [| x a].
    + destruct b; [reflexivity | discriminate E].
    + destruct b as [| y b]; [discriminate E |].
      rewrite (cosineSimilarity_regular (x :: a) (y :: b) E ltac:(discriminate)).
      rewrite (cosineSimilarity_regular (y :: b) (x :: a) (eq_sym E) ltac:(discriminate)).
      unfold dotProduct. rewrite (dotFrom_comm (x :: a) (y :: b)).
      now rewrite (FloatOrder.mul_comm (magnitude (x :: a)) (magnitude (y :: b))).
  - rewrite !cosineSimilarity_degenerate; auto.
Qed.

(** ** The ranker, continued *)

Lemma nonIncreasing_tail x l : nonIncreasing (x :: l) = true -> nonIncreasing l = true.
Proof.
  rewrite nonIncreasing_cons. destruct l; [reflexivity |].
  intros H. now apply andb_prop in H.
Qed.

Lemma nonIncreasing_head x l :
  nonIncreasing (x :: l) = true -> forall y, In y l -> (y <=? x)%float = true.
Proof.
  revert x. induction l as [| z l IH]; intros x H y Hin; [contradiction |].
  rewrite nonIncreasing_cons in H. apply andb_prop in H as [Hzx Hrest].
  destruct Hin as [<- | Hin]; [exact Hzx |].
  apply (FloatOrder.leb_trans y z x); [now apply IH | exact Hzx].
Qed.

Lemma nonIncreasing_split l1 :
  forall l2, nonIncreasing (l1 ++ l2) = true ->
  forall x y, In x l1 -> In y l2 -> (y <=? x)%float = true.
Proof.
  induction l1 as [| z l1 IH]; intros l2 H x y Hx Hy; [contradiction |].
  simpl in H. destruct Hx as [<- | Hx].
  - apply (nonIncreasing_head z (l1 ++ l2) H). apply in_or_app. now right.
  - apply (IH l2 (nonIncreasing_tail _ _ H) x y Hx Hy).
Qed.

(** X9: the three sources the ranker keeps are the best ones.  When no
    similarity is NaN, the ranked sources together with the ones left out
    make up the scored input, and no source left out has a larger
    similarity than a ranked one. *)
Theorem X9_ranked_sources_are_the_best :
  forall (queryEmbedding : list float) (sources : list Source),
    forallb (fun s => negb (is_nan (cosineSimilarity queryEmbedding (embedding s))))
      sources = true ->
    exists leftOut,
      Permutation (rankSources queryEmbedding sources ++ leftOut)
        (map (scored queryEmbedding) sources) /\
      forall r o,
        In r (rankSources queryEmbedding sources) -> In o leftOut ->
        (similarity o <=? similarity r)%float = true.
Proof.
  intros qe sources Hclean.
  set (sortedAll := sort bySimilarityDesc (map (scored qe) sources)).
  exists (skipn 3 sortedAll).
  assert (Hrank : rankSources qe sources = firstn 3 sortedAll) by reflexivity.
  rewrite Hrank. split.
  - rewrite firstn_skipn. apply sort_perm.
  - assert (Hdesc : nonIncreasing (map similarity sortedAll) = true).
    { apply sort_from_desc; [| constructor | reflexivity].
      apply Forall_forall. intros r Hin. apply in_map_iff in Hin as (s & <- & Hs).
      rewrite forallb_forall in Hclean. specialize (Hclean s Hs). simpl.
      now apply negb_true_iff in Hclean. }
    rewrite <- (firstn_skipn 3 sortedAll), map_app in Hdesc.
    intros r o Hr Ho.
    apply (nonIncreasing_split _ _ Hdesc); now apply in_map.
Qed.

(** Four sources against the query embedding [1; 0]: the one left out
    scores 0. *)
Lemma X9_ranked_sources_are_the_best_witness :
  let sources :=
    [mkSource "u1" "" [0%float; 1%float]; mkSource "u2" "" [1%float; 1%float];
     mkSource "u3" "" [1%float; 0%float]; mkSource "u4" "" []] in
  exists leftOut,
    Permutation (rankSources [1%float; 0%float] sources ++ leftOut)
      (map (scored [1%float; 0%float]) sources) /\
    forall r o,
      In r (rankSources [1%float; 0%float] sources) -> In o leftOut ->
      (similarity o <=? similarity r)%float = true.
Proof. apply X9_ranked_sources_are_the_best. reflexivity. Defined.

Lemma insertSorted_last {A} (cmp : A -> A -> float) (x : A) (l : list A) :
  (forall y, In y l -> (cmp x y <? 0)%float = false) ->
  insertSorted cmp x l = l ++ [x].
Proof.
  induction l as [| y l IH]; intros H; simpl; [reflexivity |].
  rewrite (H y (or_introl eq_refl)), IH; [reflexivity |].
  intros z Hz. apply H. now right.
Qed.

Lemma sort_from_fixed {A} (cmp : A -> A -> float) (l : list A) :
  forall acc,
    (forall x y, In x (acc ++ l) -> In y (acc ++ l) -> (cmp x y <? 0)%float = false) ->
    fold_left (fun sorted x => insertSorted cmp x sorted) l acc = acc ++ l.
Proof.
  induction l as [| x l IH]; intros acc H; simpl; [now rewrite app_nil_r |].
  rewrite insertSorted_last.
  - rewrite IH; [now rewrite <- app_assoc |].
    rewrite <- app_assoc. exact H.
  - intros y Hy. apply H; apply in_or_app; [right; now left | now left].
Qed.

(** X10: when the ranking has nothing to go by, it keeps the order of
    collection.  If the embedding of the query failed (the empty vector),
    or the embedding of every source did, every source scores 0 and the
    ranker returns the first three sources in the order they were
    collected. *)
Theorem X10_ranking_without_embeddings_keeps_order :
  forall (queryEmbedding : list float) (sources : list Source),
    queryEmbedding = [] \/ (forall s, In s sources -> embedding s = []) ->
    rankSources queryEmbedding sources =
    map (fun s => mkRanked s 0%float) (firstn 3 sources).
Proof.
  intros qe sources H.
  assert (Hzero : map (fun s => mkRanked s (cosineSimilarity qe (embedding s))) sources =
                  map (fun s => mkRanked s 0%float) sources).
  { apply map_ext_in. intros s Hs. f_equal. apply cosineSimilarity_degenerate.
    destruct H as [-> | H]; [auto |]. right. right. now apply H. }
  unfold rankSources, slice0. rewrite Hzero, <- firstn_map. f_equal.
  apply (sort_from_fixed bySimilarityDesc _ []). simpl.
  intros x y Hx Hy.
  apply in_map_iff in Hx as (sx & <- & _). apply in_map_iff in Hy as (sy & <- & _).
  reflexivity.
Qed.

(** The embedding of the query failed. *)
Lemma X10_ranking_without_embeddings_keeps_order_witness :
  rankSources [] [unitSource; zeroSource; unitSource; zeroSource] =
  [mkRanked unitSource 0%float; mkRanked zeroSource 0%float; mkRanked unitSource 0%float].
Proof.
  exact (X10_ranking_without_embeddings_keeps_order []
           [unitSource; zeroSource; unitSource; zeroSource] (or_introl eq_refl)).
Defined.

(** ** Prompts *)

Lemma append_assoc (a b c : string) : ((a ++ b) ++ c = a ++ (b ++ c))%string.
Proof. induction a as [| x a IH]; simpl; [reflexivity | now rewrite IH]. Qed.

Lemma append_empty_r (a : string) : (a ++ "")%string = a.
Proof. induction a as [| x a IH]; simpl; [reflexivity | now rewrite IH]. Qed.

Lemma prefix_append p :
  forall a b, prefix p a = true -> prefix p (a ++ b) = true.
Proof.
  induction p as [| c p IH]; intros a b H; [now destruct (a ++ b)%string |].
  destruct a as [| d a]; [discriminate H |].
  simpl in *. destruct (ascii_dec c d); [now apply IH | discriminate H].
Qed.

Lemma includes_cons x c s :
  includes x (String c s) = prefix x (String c s) || includes x s.
Proof. rewrite includes_unfold. now destruct (prefix x (String c s)). Qed.

Lemma includes_empty x : includes x "" = prefix x "".
Proof. rewrite includes_unfold. now destruct (prefix x ""). Qed.

Lemma includes_append_l x a b :
  includes x a = true -> includes x (a ++ b) = true.
Proof.
  induction a as [| c a IH].
  - rewrite includes_empty. intros Hp.
    rewrite includes_unfold, (prefix_append x "" b Hp). reflexivity.
  - change (String c a ++ b)%string with (String c (a ++ b)).
    rewrite !includes_cons. intros H. apply orb_prop in H as [Hp | H].
    + change (String c (a ++ b)) with (String c a ++ b)%string.
      now rewrite (prefix_append x _ b Hp).
    + rewrite (IH H). apply orb_true_r.
Qed.

Lemma includes_append_r x a b :
  includes x b = true -> includes x (a ++ b) = true.
Proof.
  intros H. induction a as [| c a IH]; [exact H |].
  change (String c a ++ b)%string with (String c (a ++ b)).
  rewrite includes_cons, IH. apply orb_true_r.
Qed.

Lemma includes_self x b : includes x (x ++ b) = true.
Proof. now rewrite includes_unfold, prefix_app. Qed.

Lemma includes_middle x a b : includes x (a ++ x ++ b) = true.
Proof. apply includes_append_r, includes_self. Qed.

Lemma includes_join sep p parts :
  In p parts -> includes p (join sep parts) = true.
Proof.
  induction parts as [| q parts IH]; intros Hin; [contradiction |].
  destruct parts as [| q' parts].
  - destruct Hin as [-> | []]. simpl. rewrite <- (append_empty_r p) at 2.
    apply includes_self.
  - change (join sep (q :: q' :: parts))
      with (q ++ sep ++ join sep (q' :: parts))%string.
    destruct Hin as [-> | Hin]; [apply includes_self |].
    apply includes_append_r, includes_append_r, IH, Hin.
Qed.

Lemma includes_tag_citation r :
  includes ("[Source: " ++ url (source r) ++ "]")%string (citation r) = true.
Proof.
  unfold citation.
  replace ("[Source: " ++ url (source r) ++ "]" ++ nl ++ text (source r))%string
    with (("[Source: " ++ url (source r) ++ "]") ++ nl ++ text (source r))%string.
  - apply includes_self.
  - now rewrite !append_assoc.
Qed.

Lemma includes_text_citation r : includes (text (source r)) (citation r) = true.
Proof.
  unfold citation. do 4 apply includes_append_r.
  rewrite <- (append_empty_r (text (source r))) at 2. apply includes_self.
Qed.

Lemma includes_trans x y z :
  includes x y = true -> includes y z = true -> includes x z = true.
Proof.
  intros Hxy. induction z as [| c z IH].
  - rewrite includes_empty. intros Hp. apply prefix_split in Hp.
    rewrite Hp. now apply includes_append_l.
  - rewrite (includes_cons y). intros H. apply orb_prop in H as [Hp | H].
    + apply prefix_split in Hp. rewrite Hp. now apply includes_append_l.
    + rewrite includes_cons, (IH H). apply orb_true_r.
Qed.

(** X11: the prompt built from the ranked sources cites every one of
    them: for each ranked source it holds the tag "[Source: <url>]" and the
    source's text; both prompts hold the user's query. *)
Theorem X11_prompt_cites_every_ranked_source :
  forall (query : string) (ranked : list RankedSource) (r : RankedSource),
    In r ranked ->
    includes ("[Source: " ++ url (source r) ++ "]")%string (webPrompt query ranked) = true /\
    includes (text (source r)) (webPrompt query ranked) = true /\
    includes query (webPrompt query ranked) = true /\
    includes query (generalPrompt query) = true.
Proof.
  intros query ranked r Hin.
  assert (Hcite : includes (citation r) (webPrompt query ranked) = true).
  { unfold webPrompt. do 11 apply includes_append_r.
    apply includes_append_l, includes_join, in_map, Hin. }
  split; [exact (includes_trans _ _ _ (includes_tag_citation r) Hcite) |].
  split; [exact (includes_trans _ _ _ (includes_text_citation r) Hcite) |].
  split.
  - unfold webPrompt. do 5 apply includes_append_r. apply includes_self.
  - unfold generalPrompt. do 5 apply includes_append_r. apply includes_self.
Qed.

(** The two sample sources, ranked against [1]. *)
Lemma X11_prompt_cites_every_ranked_source_witness :
  includes "[Source: http://unit.example]"
    (webPrompt "search pasta" (rankSources [1%float] [unitSource; zeroSource])) = true /\
  includes longText
    (webPrompt "search pasta" (rankSources [1%float] [unitSource; zeroSource])) = true /\
  includes "search pasta"
    (webPrompt "search pasta" (rankSources [1%float] [unitSource; zeroSource])) = true /\
  includes "search pasta" (generalPrompt "search pasta") = true.
Proof.
  apply (X11_prompt_cites_every_ranked_source "search pasta"
           (rankSources [1%float] [unitSource; zeroSource])
           (mkRanked unitSource 1%float)).
  left. reflexivity.
Defined.

(** ** The streamed answer *)

Lemma fold_append_from {A} (f : A -> string) (l : list A) :
  forall acc,
    fold_left (fun a x => (a ++ f x)%string) l acc = (acc ++ joined (map f l))%string.
Proof.
  induction l as [| x l IH]; intros acc; simpl.
  - now rewrite append_empty_r.
  - now rewrite IH, append_assoc.
Qed.

Lemma chunk_fold w (lines : list string) :
  forall acc,
    fold_left
      (fun answer line =>
         match json_response w line with
         | Some (Some r) => (answer ++ r)%string
         | _ => answer
         end) lines acc =
    (acc ++ joined (map (fun line => match json_response w line with
                                     | Some (Some r) => r
                                     | _ => EmptyString
                                     end) lines))%string.
Proof.
  induction lines as [| line lines IH]; intros acc; simpl.
  - now rewrite append_empty_r.
  - rewrite IH. destruct (json_response w line) as [[r |] |];
      [now rewrite append_assoc | reflexivity | reflexivity].
Qed.

(** What the lines of a chunk add to the answer. *)
Lemma chunkText_lines w chunk :
  chunkText w chunk =
  joined (map (fun line => match json_response w line with
                           | Some (Some r) => r
                           | _ => EmptyString
                           end)
              (filter (fun line => negb (isEmpty (trim line)))
                      (split (ascii_of_nat 10) chunk))).
Proof. unfold chunkText. now rewrite chunk_fold. Qed.

Lemma splitFrom_append sep a :
  forall cur b,
    splitFrom sep cur (a ++ String sep b) =
    splitFrom sep cur a ++ splitFrom sep EmptyString b.
Proof.
  induction a as [| c a IH]; intros cur b; simpl.
  - now rewrite Ascii.eqb_refl.
  - destruct (Ascii.eqb c sep); [now rewrite IH | apply IH].
Qed.

Lemma joined_app l1 l2 : joined (l1 ++ l2) = (joined l1 ++ joined l2)%string.
Proof.
  induction l1 as [| x l1 IH]; simpl; [reflexivity |].
  now rewrite IH, append_assoc.
Qed.

(** The lines [split] cuts a chunk into hold no line break and give the
    chunk back when put together with line breaks. *)
Lemma noLineBreak_snoc cur c :
  noLineBreak cur = true -> Ascii.eqb c (ascii_of_nat 10) = false ->
  noLineBreak (cur ++ String c EmptyString) = true.
Proof.
  intros Hcur Hc. induction cur as [| d cur IH]; simpl in *; [now rewrite Hc |].
  apply andb_prop in Hcur as [Hd Hcur]. now rewrite Hd, IH.
Qed.

Lemma splitFrom_nonempty sep s : forall cur, splitFrom sep cur s <> [].
Proof.
  induction s as [| c s IH]; intros cur; simpl; [discriminate |].
  destruct (Ascii.eqb c sep); [discriminate | apply IH].
Qed.

Lemma splitFrom_lines s :
  forall cur,
    noLineBreak cur = true ->
    String.concat nl (splitFrom (ascii_of_nat 10) cur s) = (cur ++ s)%string /\
    Forall (fun line => noLineBreak line = true) (splitFrom (ascii_of_nat 10) cur s).
Proof.
  induction s as [| c s IH]; intros cur Hcur.
  - simpl. rewrite append_empty_r. split; [reflexivity | now constructor].
  - cbn [splitFrom]. destruct (Ascii.eqb c (ascii_of_nat 10)) eqn:Hc.
    + destruct (IH EmptyString eq_refl) as [Hcat Hall].
      apply Ascii.eqb_eq in Hc. subst c. split; [| now constructor].
      cbn [String.concat].
      destruct (splitFrom (ascii_of_nat 10) EmptyString s) as [| l ls] eqn:Hs.
      * now apply splitFrom_nonempty in Hs.
      * rewrite Hcat. reflexivity.
    + destruct (IH (cur ++ String c EmptyString)%string (noLineBreak_snoc _ _ Hcur Hc))
        as [Hcat Hall].
      split; [| exact Hall]. rewrite Hcat, append_assoc. reflexivity.
Qed.

(** A line is blank for the code, [line.trim() === ''], exactly when it
    holds white space only. *)
Lemma trim_blank line : isEmpty (trim line) = allSpace line.
Proof.
  unfold trim. induction line as [| c r IH]; [reflexivity |].
  simpl. destruct (isSpace c) eqn:Hc; [exact IH |].
  simpl. destruct (trimEnd r); [rewrite Hc |]; reflexivity.
Qed.

Lemma chunkText_spoken w chunk : spoken w chunk (chunkText w chunk).
Proof.
  destruct (splitFrom_lines chunk EmptyString eq_refl) as [Hcat Hall].
  exists (split (ascii_of_nat 10) chunk). split; [exact Hcat |]. split; [exact Hall |].
  rewrite chunkText_lines. unfold responseOf. f_equal. f_equal.
  apply filter_ext. intros line. now rewrite trim_blank.
Qed.

(** X12: the answer [generateStreamingAnswer] returns is what the lines of
    the stream say, put together in the order of arrival: each chunk is
    cut at its line breaks, blank lines are passed over, and every other
    line adds its [response] field when it is JSON with such a field and
    nothing otherwise.  The function returns only for a 2xx answer whose
    stream ends normally, after one request to the generation endpoint. *)
Theorem X12_answer_concatenates_the_chunks :
  forall (w : World) (prompt : string) (st : State) (answer : string) (st' : State),
    generateStreamingAnswer w prompt st = Ret answer st' ->
    exists status chunks said,
      generate_reply w (trace st) prompt = GenResp status chunks false /\
      ok status = true /\
      Forall2 (spoken w) chunks said /\
      answer = joined said /\
      trace st' = trace st ++ [EvGenerate prompt].
Proof.
  intros w p st answer st'.
  unfold generateStreamingAnswer, bind, call. simpl.
  destruct (generate_reply w (trace st) p) as [| status chunks readFails];
    [discriminate |].
  destruct (ok status) eqn:Hok; simpl; [| discriminate].
  destruct readFails; [discriminate |].
  intros H. injection H as <- <-. exists status, chunks, (map (chunkText w) chunks).
  rewrite fold_append_from. repeat split; auto.
  clear. induction chunks as [| chunk chunks IH]; simpl; constructor;
    [apply chunkText_spoken | exact IH].
Qed.

(** A stream of two chunks: the lines with a response say "Hel", "lo" and
    " world"; the empty line, the blank line, the line that is no JSON and
    the line without response add nothing. *)
Lemma X12_answer_concatenates_the_chunks_witness :
  exists status chunks said,
    generate_reply streamWorld (trace initialState) "prompt" =
      GenResp status chunks false /\
    ok status = true /\
    Forall2 (spoken streamWorld) chunks said /\
    "Hello world" = joined said /\
    [EvGenerate "prompt"] = trace initialState ++ [EvGenerate "prompt"].
Proof.
  apply (X12_answer_concatenates_the_chunks streamWorld "prompt" initialState
           "Hello world" (mkState false [EvGenerate "prompt"])).
  vm_compute. reflexivity.
Defined.

(** X13: it does not matter whether two lines of the stream arrive in one
    chunk or in two: a chunk made of [a], a line break and [b] adds to the
    answer what the chunks [a] and [b] add one after the other. *)
Theorem X13_chunk_boundary_at_line_break :
  forall (w : World) (a b : string),
    chunkText w (a ++ nl ++ b) = (chunkText w a ++ chunkText w b)%string.
Proof.
  intros w a b. rewrite !chunkText_lines. unfold split, nl. simpl (_ ++ b)%string.
  rewrite splitFrom_append, filter_app, map_app. apply joined_app.
Qed.

(** ** The orchestrators, continued *)

(** X14: a query without the trigger word, in whatever case, is answered
    from the model alone: the turn of the script with the trigger makes
    one request, to the generator with the knowledge-only prompt, and no
    request to the search engine, to a page, to the registry or to the
    embedding endpoint. *)
Theorem X14_general_mode_makes_one_request :
  forall (w : World) (query : string) (st : State),
    includes "search" (toLowerCase query) = false ->
    trace (finalState (SmartSearch.answerQuery w query st)) =
    trace st ++ [EvGenerate (generalPrompt query)].
Proof.
  intros w query st H. unfold SmartSearch.answerQuery. rewrite H. simpl negb. cbv iota.
  apply generalAnswer_trace.
Qed.

Lemma X14_general_mode_makes_one_request_witness :
  trace (finalState (SmartSearch.answerQuery searchDownWorld "capital of France"
                       initialState)) =
  trace initialState ++ [EvGenerate (generalPrompt "capital of France")].
Proof.
  exact (X14_general_mode_makes_one_request searchDownWorld "capital of France"
           initialState eq_refl).
Defined.

(** *** Requests per turn *)

Lemma bounded_weaken {A} f n m (c : M A) : Bounded f n c -> n <= m -> Bounded f m c.
Proof. intros Hc Hnm st. destruct (Hc st) as (d & Hd & Hn). exists d. split; [exact Hd | lia]. Qed.

Lemma bounded_ret {A} f (a : A) : Bounded f 0 (ret a).
Proof. intros st. exists []. simpl. now rewrite app_nil_r. Qed.

Lemma bounded_call {R} f (ev : Event) (oracle : list Event -> R) :
  Bounded f (if f ev then 1 else 0) (call ev oracle).
Proof.
  intros st. exists [ev]. split; [reflexivity |].
  unfold countEvents. simpl. destruct (f ev); simpl; lia.
Qed.

Lemma bounded_bind {A B} f a b (c : M A) (k : A -> M B) :
  Bounded f a c -> (forall x, Bounded f b (k x)) -> Bounded f (a + b) (bind c k).
Proof.
  intros Hc Hk st. unfold bind. destruct (Hc st) as (d & Hd & Hn).
  destruct (c st) as [x st' | e st' | st']; simpl in *;
    [| exists d; split; [exact Hd | lia] ..].
  destruct (Hk x st') as (d' & Hd' & Hn'). exists (d ++ d').
  rewrite Hd', Hd, app_assoc, countEvents_app. split; [reflexivity | lia].
Qed.

Lemma bounded_tryCatch {A} f a b (c : M A) (h : Err -> M A) :
  Bounded f a c -> (forall e, Bounded f b (h e)) -> Bounded f (a + b) (tryCatch c h).
Proof.
  intros Hc Hh st. unfold tryCatch. destruct (Hc st) as (d & Hd & Hn).
  destruct (c st) as [x st' | e st' | st']; simpl in *;
    [exists d; split; [exact Hd | lia] | | exists d; split; [exact Hd | lia]].
  destruct (Hh e st') as (d' & Hd' & Hn'). exists (d ++ d').
  rewrite Hd', Hd, app_assoc, countEvents_app. split; [reflexivity | lia].
Qed.

(** A computation that only makes requests of other kinds makes none of
    the kind [f]. *)
Lemma bounded_none {A} f P (c : M A) :
  (forall ev, P ev = true -> f ev = false) -> Emits P c -> Bounded f 0 c.
Proof.
  intros HP Hc st. destruct (Hc st) as [(d & Hd & Hall) _]. exists d.
  split; [exact Hd |]. now rewrite (countEvents_none f P d HP Hall).
Qed.

Lemma bounded_one {A} f ev (c : M A) :
  (forall st, trace (finalState (c st)) = trace st ++ [ev]) -> Bounded f 1 c.
Proof.
  intros H st. exists [ev]. split; [apply H |].
  unfold countEvents. simpl. destruct (f ev); simpl; lia.
Qed.

Lemma searchWeb_trace w q st :
  trace (finalState (searchWeb w q st)) = trace st ++ [EvSearch q].
Proof.
  destruct (searchWeb_run w q st) as [(_ & e & ->) | (_ & r & ->)]; reflexivity.
Qed.

Lemma generateStreamingAnswer_trace w p st :
  trace (finalState (generateStreamingAnswer w p st)) = trace st ++ [EvGenerate p].
Proof.
  destruct (generateStreamingAnswer_run w p st) as [(_ & a & ->) | (_ & e & ->)];
    reflexivity.
Qed.

Lemma emits_searchWeb_search w q : Emits isSearchEvent (searchWeb w q).
Proof. unfold searchWeb. emits. Qed.

Lemma emits_generateStreamingAnswer_generate w p :
  Emits isGenerateEvent (generateStreamingAnswer w p).
Proof. unfold generateStreamingAnswer. emits. Qed.

Lemma search_not_other ev :
  isSearchEvent ev = true -> isPageEvent ev = false /\ isGenerateEvent ev = false.
Proof. now destruct ev. Qed.

Lemma fetch_not_other ev :
  isFetchEvent ev = true -> isSearchEvent ev = false /\ isGenerateEvent ev = false.
Proof. now destruct ev. Qed.

Lemma embedding_not_other ev :
  isEmbeddingEvent ev = true ->
  isSearchEvent ev = false /\ isPageEvent ev = false /\ isGenerateEvent ev = false.
Proof. now destruct ev. Qed.

Lemma generate_not_other ev :
  isGenerateEvent ev = true -> isSearchEvent ev = false /\ isPageEvent ev = false.
Proof. now destruct ev. Qed.

(** The search request is the only one of [searchWeb], the generation
    request the only one of [generateStreamingAnswer]. *)
Lemma bounded_searchWeb f w q : Bounded f 1 (searchWeb w q).
Proof. apply bounded_one with (ev := EvSearch q). apply searchWeb_trace. Qed.

Lemma bounded_generateStreamingAnswer f w p : Bounded f 1 (generateStreamingAnswer w p).
Proof.
  apply bounded_one with (ev := EvGenerate p). apply generateStreamingAnswer_trace.
Qed.

Lemma searchWeb_nothing_else f w q :
  (forall ev, isSearchEvent ev = true -> f ev = false) -> Bounded f 0 (searchWeb w q).
Proof. intros H. exact (bounded_none f isSearchEvent _ H (emits_searchWeb_search w q)). Qed.

Lemma getEmbedding_nothing_else f w t :
  (forall ev, isEmbeddingEvent ev = true -> f ev = false) ->
  Bounded f 0 (getEmbedding w t).
Proof. intros H. exact (bounded_none f isEmbeddingEvent _ H (emits_getEmbedding w t)). Qed.

Lemma generate_nothing_else f w p :
  (forall ev, isGenerateEvent ev = true -> f ev = false) ->
  Bounded f 0 (generateStreamingAnswer w p).
Proof.
  intros H.
  exact (bounded_none f isGenerateEvent _ H (emits_generateStreamingAnswer_generate w p)).
Qed.

(** Ranking and answering make the requests of the generation, and
    requests for embeddings. *)
Lemma bounded_rankAndGenerate f n w query sources :
  (forall ev, isEmbeddingEvent ev = true -> f ev = false) ->
  (forall p, Bounded f n (generateStreamingAnswer w p)) ->
  Bounded f n (SmartSearch.generateWebAnswer w query sources) /\
  Bounded f n (SemanticSearch.generateAnswer w query sources).
Proof.
  intros He Hg.
  split; unfold SmartSearch.generateWebAnswer, SemanticSearch.generateAnswer;
    change n with (0 + n); apply bounded_bind;
    try (apply getEmbedding_nothing_else; exact He); intros x; apply Hg.
Qed.

Lemma bounded_then_unit {A} f n (c : M A) : Bounded f n c -> Bounded f n (c ;; ret tt).
Proof.
  intros H. replace n with (n + 0) by lia.
  apply bounded_bind; [exact H | intros; apply bounded_ret].
Qed.

(** One page fetched: one page request. *)
Lemma bounded_fetchPageContent w u : Bounded isPageEvent 1 (fetchPageContent w u).
Proof.
  intros st. destruct (fetchPageContent_trace w u st) as (later & Ht & Hl).
  exists (EvPageGet u :: later). split; [exact Ht |].
  change (EvPageGet u :: later) with ([EvPageGet u] ++ later).
  rewrite countEvents_app.
  rewrite (countEvents_none isPageEvent isEmbeddingEvent later); [simpl; lia | | exact Hl].
  intros ev Hev. now destruct (embedding_not_other ev Hev) as (_ & H & _).
Qed.

Lemma bounded_fetchLinks w links acc :
  Bounded isPageEvent (length links) (SemanticSearch.fetchLinks w links acc).
Proof.
  revert acc. induction links as [| link rest IH]; intros acc; simpl.
  - apply bounded_ret.
  - change (S (length rest)) with (1 + length rest).
    apply bounded_bind; [apply bounded_fetchPageContent | intros content; apply IH].
Qed.

Lemma length_slice0 {A} n (l : list A) : length (slice0 n l) <= n.
Proof. unfold slice0. rewrite length_firstn. lia. Qed.

Lemma bounded_smart_collectSources w required pending acc :
  Bounded isPageEvent (length pending)
    (SmartSearch.collectSources w required pending acc).
Proof.
  revert acc. induction pending as [| result rest IH]; intros acc.
  - apply bounded_ret.
  - cbn [SmartSearch.collectSources].
    destruct (length acc <? required);
      [| apply bounded_weaken with (n := 0); [apply bounded_ret | lia]].
    change (length (result :: rest)) with ((1 + 0) + length rest).
    apply bounded_bind.
    + apply bounded_tryCatch; [| intros; apply bounded_ret].
      replace 1 with (1 + 0) by lia.
      apply bounded_bind; [apply bounded_fetchPageContent | intros; apply bounded_ret].
    + intros sources'.
      destruct ((length rest =? 0) && (length sources' <? required));
        [apply bounded_weaken with (n := 0); [apply bounded_ret | lia] | apply IH].
Qed.

Lemma bounded_semantic_collectSources w results :
  Bounded isPageEvent 10 (SemanticSearch.collectSources w results).
Proof.
  unfold SemanticSearch.collectSources.
  apply bounded_weaken with (n := length (slice0 10 results));
    [apply bounded_fetchLinks | apply length_slice0].
Qed.

Lemma collecting_nothing_else f w :
  (forall ev, isFetchEvent ev = true -> f ev = false) ->
  (forall required pending acc,
      Bounded f 0 (SmartSearch.collectSources w required pending acc)) /\
  (forall results, Bounded f 0 (SemanticSearch.collectSources w results)).
Proof.
  intros H. split; intros.
  - exact (bounded_none f isFetchEvent _ H (emits_smart_collectSources w _ _ _)).
  - exact (bounded_none f isFetchEvent _ H (emits_semantic_collectSources w _)).
Qed.

(** The requests of one turn, from those of its three stages. *)
Lemma semantic_turn_bound f a b c w query :
  (forall q, Bounded f a (searchWeb w q)) ->
  (forall results, Bounded f b (SemanticSearch.collectSources w results)) ->
  (forall sources, Bounded f c (SemanticSearch.generateAnswer w query sources)) ->
  Bounded f (a + (b + c)) (SemanticSearch.answerQuery w query).
Proof.
  intros Ha Hb Hc. unfold SemanticSearch.answerQuery.
  replace (a + (b + c)) with (a + (b + c) + 0) by lia.
  apply bounded_tryCatch; [| intros; apply bounded_ret].
  apply bounded_bind; [apply Ha | intros results].
  apply bounded_bind; [apply Hb | intros sources].
  destruct (length sources =? 0).
  - apply bounded_weaken with (n := 0); [apply bounded_ret | lia].
  - apply bounded_then_unit, Hc.
Qed.

Lemma smart_turn_bound f a b c w query :
  (forall q, Bounded f a (searchWeb w q)) ->
  (forall required pending acc,
      Bounded f b (SmartSearch.collectSources w required pending acc)) ->
  (forall sources, Bounded f c (SmartSearch.generateWebAnswer w query sources)) ->
  Bounded f c (SmartSearch.generateGeneralAnswer w query) ->
  Bounded f (a + (b + c) + c) (SmartSearch.answerQuery w query).
Proof.
  intros Ha Hb Hc Hg. unfold SmartSearch.answerQuery.
  destruct (negb (includes "search" (toLowerCase query))).
  - apply bounded_weaken with (n := c); [apply bounded_then_unit, Hg | lia].
  - unfold SmartSearch.webSearch.
    apply bounded_tryCatch; [| intros; apply bounded_then_unit, Hg].
    apply bounded_bind; [apply Ha | intros results].
    apply bounded_bind; [apply Hb | intros sources].
    destruct (length sources =? 0); apply bounded_then_unit; [apply Hg | apply Hc].
Qed.

(** X15: the requests of one turn are bounded whatever the services
    answer.  The script that always searches sends at most one search
    request, ten page requests and one generation request; the script
    with the trigger sends at most one search request and two generation
    requests (the second is the general answer after a failure). *)
Theorem X15_requests_per_turn :
  forall (w : World) (query : string),
    Bounded isSearchEvent 1 (SemanticSearch.answerQuery w query) /\
    Bounded isPageEvent 10 (SemanticSearch.answerQuery w query) /\
    Bounded isGenerateEvent 1 (SemanticSearch.answerQuery w query) /\
    Bounded isSearchEvent 1 (SmartSearch.answerQuery w query) /\
    Bounded isGenerateEvent 2 (SmartSearch.answerQuery w query).
Proof.
  intros w query.
  assert (Hes : forall ev, isEmbeddingEvent ev = true -> isSearchEvent ev = false)
    by (intros ev H; apply (embedding_not_other ev H)).
  assert (Hep : forall ev, isEmbeddingEvent ev = true -> isPageEvent ev = false)
    by (intros ev H; apply (embedding_not_other ev H)).
  assert (Heg : forall ev, isEmbeddingEvent ev = true -> isGenerateEvent ev = false)
    by (intros ev H; apply (embedding_not_other ev H)).
  assert (Hfs : forall ev, isFetchEvent ev = true -> isSearchEvent ev = false)
    by (intros ev H; apply (fetch_not_other ev H)).
  assert (Hfg : forall ev, isFetchEvent ev = true -> isGenerateEvent ev = false)
    by (intros ev H; apply (fetch_not_other ev H)).
  assert (Hsp : forall ev, isSearchEvent ev = true -> isPageEvent ev = false)
    by (intros ev H; apply (search_not_other ev H)).
  assert (Hsg : forall ev, isSearchEvent ev = true -> isGenerateEvent ev = false)
    by (intros ev H; apply (search_not_other ev H)).
  assert (Hgs : forall ev, isGenerateEvent ev = true -> isSearchEvent ev = false)
    by (intros ev H; apply (generate_not_other ev H)).
  assert (Hgp : forall ev, isGenerateEvent ev = true -> isPageEvent ev = false)
    by (intros ev H; apply (generate_not_other ev H)).
  repeat split.
  - apply (semantic_turn_bound isSearchEvent 1 0 0).
    + intros; apply bounded_searchWeb.
    + apply (collecting_nothing_else isSearchEvent w Hfs).
    + intros sources.
      apply (bounded_rankAndGenerate isSearchEvent 0 w query sources Hes).
      intros p. apply generate_nothing_else, Hgs.
  - apply (semantic_turn_bound isPageEvent 0 10 0).
    + intros; apply searchWeb_nothing_else, Hsp.
    + apply bounded_semantic_collectSources.
    + intros sources.
      apply (bounded_rankAndGenerate isPageEvent 0 w query sources Hep).
      intros p. apply generate_nothing_else, Hgp.
  - apply (semantic_turn_bound isGenerateEvent 0 0 1).
    + intros; apply searchWeb_nothing_else, Hsg.
    + apply (collecting_nothing_else isGenerateEvent w Hfg).
    + intros sources.
      apply (bounded_rankAndGenerate isGenerateEvent 1 w query sources Heg).
      intros p. apply bounded_generateStreamingAnswer.
  - apply (smart_turn_bound isSearchEvent 1 0 0).
    + intros; apply bounded_searchWeb.
    + apply (collecting_nothing_else isSearchEvent w Hfs).
    + intros sources.
      apply (bounded_rankAndGenerate isSearchEvent 0 w query sources Hes).
      intros p. apply generate_nothing_else, Hgs.
    + apply generate_nothing_else, Hgs.
  - apply (smart_turn_bound isGenerateEvent 0 0 1).
    + intros; apply searchWeb_nothing_else, Hsg.
    + apply (collecting_nothing_else isGenerateEvent w Hfg).
    + intros sources.
      apply (bounded_rankAndGenerate isGenerateEvent 1 w query sources Heg).
      intros p. apply bounded_generateStreamingAnswer.
    + apply bounded_generateStreamingAnswer.
Qed.

(** *** Exceptions *)

Lemma neverThrows_ret {A} (a : A) : NeverThrows (ret a).
Proof. intros st e st'. discriminate. Qed.

Lemma neverThrows_call {R} ev (oracle : list Event -> R) : NeverThrows (call ev oracle).
Proof. intros st e st'. discriminate. Qed.

Lemma neverThrows_bind {A B} (c : M A) (k : A -> M B) :
  NeverThrows c -> (forall x, NeverThrows (k x)) -> NeverThrows (bind c k).
Proof.
  intros Hc Hk st e st'. unfold bind.
  destruct (c st) as [x st1 | e1 st1 | st1] eqn:E;
    [apply Hk | exfalso; exact (Hc _ _ _ E) | discriminate].
Qed.

Lemma neverThrows_tryCatch {A} (c : M A) (h : Err -> M A) :
  (forall e, NeverThrows (h e)) -> NeverThrows (tryCatch c h).
Proof.
  intros Hh st e st'. unfold tryCatch.
  destruct (c st) as [x st1 | e1 st1 | st1]; [discriminate | apply Hh | discriminate].
Qed.

(** X16: the script that always searches never ends by an exception:
    whatever the services answer and whatever is typed, its session ends
    normally or by the exit of the failed availability check. *)
Theorem X16_always_search_never_throws :
  forall (w : World) (lines : list (option string)) (st : State),
    (exists st', SemanticSearch.main w lines st = Ret tt st') \/
    (exists st', SemanticSearch.main w lines st = Exit st').
Proof.
  intros w lines.
  assert (H : NeverThrows (SemanticSearch.main w lines)).
  { induction lines as [| line rest IH]; simpl.
    - apply neverThrows_bind; [apply neverThrows_call | intros x].
      destruct (sessionEnds x); apply neverThrows_ret.
    - apply neverThrows_bind; [apply neverThrows_call | intros x].
      destruct (sessionEnds x); [apply neverThrows_ret |].
      destruct line as [query |]; [| apply neverThrows_ret].
      apply neverThrows_bind; [| intros; exact IH].
      unfold SemanticSearch.answerQuery. apply neverThrows_tryCatch.
      intros e. apply neverThrows_ret. }
  intros st. specialize (H st).
  destruct (SemanticSearch.main w lines st) as [[] st' | e st' | st'];
    [left; eauto | exfalso; exact (H e st' eq_refl) | right; eauto].
Qed.

(** The web answer can only fail in the generation: the request with
    the web context is then the last one made. *)
Lemma generateWebAnswer_throws w query sources st e st' :
  SmartSearch.generateWebAnswer w query sources st = Throw e st' ->
  exists before queryEmbedding,
    trace st' =
    before ++ [EvGenerate (webPrompt query (rankSources queryEmbedding sources))].
Proof.
  unfold SmartSearch.generateWebAnswer, bind.
  destruct (getEmbedding w query st) as [qe st1 | e1 st1 | st1] eqn:E.
  - intros H. exists (trace st1), qe.
    destruct (generateStreamingAnswer_run w (webPrompt query (rankSources qe sources)) st1)
      as [(_ & a & Hr) | (_ & e2 & Hr)]; rewrite Hr in H; [discriminate |].
    now injection H as _ <-.
  - exfalso. exact (neverThrows_getEmbedding w query st e1 st1 E).
  - discriminate.
Qed.

(** X17: when the search and the collecting succeed with some Source and
    the web answer then fails, the script with the trigger goes on with
    the general answer from the state the failure left, so that the turn
    ends with two generation requests, the one with the web context and
    the knowledge-only one; the script that always searches ends the turn
    there. *)
Theorem X17_failed_web_answer :
  forall (w : World) (query : string) (st : State) (results : list SearchResult)
         (st1 : State) (sources : list Source) (st2 : State) (e : Err) (st3 : State),
    (searchWeb w (SmartSearch.searchTerms query) st = Ret results st1 ->
     SmartSearch.collectSources w REQUIRED_LINKS results [] st1 = Ret sources st2 ->
     sources <> [] ->
     SmartSearch.generateWebAnswer w query sources st2 = Throw e st3 ->
     SmartSearch.webSearch w query st =
       (SmartSearch.generateGeneralAnswer w query ;; ret tt) st3 /\
     exists before queryEmbedding,
       trace (finalState (SmartSearch.webSearch w query st)) =
       before ++ [EvGenerate (webPrompt query (rankSources queryEmbedding sources));
                  EvGenerate (generalPrompt query)]) /\
    (searchWeb w query st = Ret results st1 ->
     SemanticSearch.collectSources w results st1 = Ret sources st2 ->
     sources <> [] ->
     SemanticSearch.generateAnswer w query sources st2 = Throw e st3 ->
     SemanticSearch.answerQuery w query st = Ret tt st3).
Proof.
  intros w query st results st1 sources st2 e st3. split.
  - intros Hs Hc Hne Hg.
    assert (Heq : SmartSearch.webSearch w query st =
                  (SmartSearch.generateGeneralAnswer w query ;; ret tt) st3).
    { rewrite smart_webSearch_unfold, Hs, Hc.
      destruct sources as [| s0 rest]; [congruence |]. simpl (length _ =? 0). cbv iota.
      unfold tryCatch, bind at 1. now rewrite Hg. }
    split; [exact Heq |].
    destruct (generateWebAnswer_throws w query sources st2 e st3 Hg) as (before & qe & Ht).
    exists before, qe. rewrite Heq, generalAnswer_trace, Ht. now rewrite <- app_assoc.
  - intros Hs Hc Hne Hg. rewrite semantic_answerQuery_unfold, Hs, Hc.
    destruct sources as [| s0 rest]; [congruence |]. simpl (length _ =? 0). cbv iota.
    now rewrite Hg.
Qed.

Lemma X17_failed_web_answer_witness :
  (exists st3,
      SmartSearch.webSearch generatorDownWorld "search rust" initialState =
      (SmartSearch.generateGeneralAnswer generatorDownWorld "search rust" ;; ret tt) st3 /\
      exists before queryEmbedding,
        trace (finalState (SmartSearch.webSearch generatorDownWorld "search rust"
                             initialState)) =
        before ++ [EvGenerate (webPrompt "search rust"
                                 (rankSources queryEmbedding
                                    [mkSource "http://a.example" longText
                                       [1%float; 0%float];
                                     mkSource "http://b.example" longText
                                       [1%float; 0%float]]));
                   EvGenerate (generalPrompt "search rust")]) /\
  exists st3,
    SemanticSearch.answerQuery generatorDownWorld "rust" initialState = Ret tt st3.
Proof.
  split.
  - eexists.
    refine (proj1 (X17_failed_web_answer generatorDownWorld "search rust" initialState
                     _ _ _ _ _ _) _ _ _ _);
      [vm_compute; reflexivity | vm_compute; reflexivity | discriminate
      | vm_compute; reflexivity].
  - eexists.
    refine (proj2 (X17_failed_web_answer generatorDownWorld "rust" initialState
                     _ _ _ _ _ _) _ _ _ _);
      [vm_compute; reflexivity | vm_compute; reflexivity | discriminate
      | vm_compute; reflexivity].
Defined.

(** ** The search terms *)

(** White space before the pattern is not part of a match. *)
Lemma replace_after_space pre post :
  allSpace pre = true ->
  replace "search" "" (pre ++ "search" ++ post) = (pre ++ post)%string.
Proof.
  induction pre as [| c pre IH]; intros H.
  - rewrite replace_unfold.
    change ("" ++ "search" ++ post)%string with ("search" ++ post)%string.
    rewrite prefix_app. reflexivity.
  - simpl in H. apply andb_prop in H as [Hc Hpre].
    rewrite replace_unfold.
    change ((String c pre) ++ "search" ++ post)%string
      with (String c (pre ++ "search" ++ post)).
    assert (Hp : prefix "search" (String c (pre ++ "search" ++ post)) = false).
    { cbn [prefix]. destruct (ascii_dec "s" c) as [<- |]; [discriminate Hc | reflexivity]. }
    rewrite Hp, (IH Hpre). reflexivity.
Qed.

Lemma toLowerCase_app a b : toLowerCase (a ++ b) = (toLowerCase a ++ toLowerCase b)%string.
Proof. induction a as [| c a IH]; simpl; [reflexivity | now rewrite IH]. Qed.

(** X18: the string sent to the search engine by the script with the
    trigger never begins or ends with white space, and trimming it again
    changes nothing. *)
Theorem X18_search_terms_are_trimmed :
  forall query : string,
    startsWithSpace (SmartSearch.searchTerms query) = false /\
    endsWithSpace (SmartSearch.searchTerms query) = false /\
    trim (SmartSearch.searchTerms query) = SmartSearch.searchTerms query.
Proof.
  intros query. unfold SmartSearch.searchTerms.
  destruct (trim_no_outer_space (replace "search" "" query)) as [H1 H2].
  repeat split; [exact H1 | exact H2 | now apply trim_id].
Qed.

(** X19: a query that is only the trigger word, with or without white
    space around it, runs a web search for the empty string: the first
    request of the turn is the search request with no terms. *)
Theorem X19_bare_trigger_searches_nothing :
  forall (w : World) (pre post : string) (st : State),
    allSpace pre = true -> allSpace post = true ->
    SmartSearch.searchTerms (pre ++ "search" ++ post) = "" /\
    exists later,
      trace (finalState (SmartSearch.answerQuery w (pre ++ "search" ++ post) st)) =
      trace st ++ EvSearch "" :: later.
Proof.
  intros w pre post st Hpre Hpost.
  assert (Hterms : SmartSearch.searchTerms (pre ++ "search" ++ post) = "").
  { unfold SmartSearch.searchTerms, trim.
    rewrite (replace_after_space pre post Hpre).
    now rewrite (trimStart_allSpace _ (allSpace_app _ _ Hpre Hpost)). }
  split; [exact Hterms |].
  assert (Htrig : includes "search" (toLowerCase (pre ++ "search" ++ post)) = true).
  { rewrite !toLowerCase_app. apply includes_middle. }
  unfold SmartSearch.answerQuery. rewrite Htrig. simpl negb. cbv iota.
  assert (Hfirst : StartsWith (EvSearch (SmartSearch.searchTerms (pre ++ "search" ++ post)))
                     (SmartSearch.webSearch w (pre ++ "search" ++ post))).
  { unfold SmartSearch.webSearch.
    apply startsWith_tryCatch; [| intros e; mono].
    apply startsWith_bind; [apply startsWith_searchWeb | intros r; mono]. }
  rewrite Hterms in Hfirst. exact (Hfirst st).
Qed.

Lemma X19_bare_trigger_searches_nothing_witness :
  SmartSearch.searchTerms (" " ++ "search" ++ "  ") = "" /\
  exists later,
    trace (finalState (SmartSearch.answerQuery (healthyWorld threeUrls)
                         (" " ++ "search" ++ "  ") initialState)) =
    trace initialState ++ EvSearch "" :: later.
Proof.
  exact (X19_bare_trigger_searches_nothing (healthyWorld threeUrls) " " "  "
           initialState eq_refl eq_refl).
Defined.
